(** * folly/Bits.h: bit scanning, powers of two, byte order, bit iteration

    A shallow embedding of [folly/Bits.h].  Integers are mathematical
    integers ([Z]) restricted to the range of their C++ type; every
    conversion and every wrap-around the C++ code performs is written out.
    The data model is the one the header is built for (glibc on LP64:
    [int] is 32 bits wide, [long] and [long long] are 64 bits wide, two's
    complement). *)

From Stdlib Require Import ZArith List Bool Lia.
Import ListNotations.
Local Open Scope Z_scope.

(** ** The integral types of the header *)

Module CInt.

Inductive Width : Set := W8 | W16 | W32 | W64.

Definition bits (w : Width) : Z :=
  match w with W8 => 8 | W16 => 16 | W32 => 32 | W64 => 64 end.

(** An integral type: its signedness and its width. *)
Record IntType : Set := mkInt { is_signed : bool; width : Width }.

Definition int8_t   := mkInt true  W8.
Definition uint8_t  := mkInt false W8.
Definition int16_t  := mkInt true  W16.
Definition uint16_t := mkInt false W16.
Definition int32_t  := mkInt true  W32.
Definition uint32_t := mkInt false W32.
Definition int64_t  := mkInt true  W64.
Definition uint64_t := mkInt false W64.

(** The builtin types on LP64. *)
Definition int_t    := int32_t.
Definition uint_t   := uint32_t.
Definition long_t   := int64_t.
Definition ulong_t  := uint64_t.
Definition llong_t  := int64_t.
Definition ullong_t := uint64_t.
Definition size_t   := uint64_t.
Definition ssize_t  := int64_t.

(** [sizeof(T)], in bytes. *)
Definition sizeof (T : IntType) : Z := bits (width T) / 8.

(** [std::numeric_limits<T>::digits]: the number of value bits. *)
Definition digits (T : IntType) : Z :=
  if is_signed T then bits (width T) - 1 else bits (width T).

Definition min_value (T : IntType) : Z :=
  if is_signed T then - 2 ^ (bits (width T) - 1) else 0.

Definition max_value (T : IntType) : Z :=
  if is_signed T then 2 ^ (bits (width T) - 1) - 1 else 2 ^ bits (width T) - 1.

Definition in_range (T : IntType) (x : Z) : Prop :=
  min_value T <= x <= max_value T.

Definition in_rangeb (T : IntType) (x : Z) : bool :=
  (min_value T <=? x) && (x <=? max_value T).

Definition make_signed (T : IntType) : IntType := mkInt true (width T).
Definition make_unsigned (T : IntType) : IntType := mkInt false (width T).

(** [static_cast<T>(x)]: the value of [T] with the bit pattern of [x]
    (value preserving when [x] fits, modulo [2^width] otherwise). *)
Definition static_cast (T : IntType) (x : Z) : Z :=
  let w := bits (width T) in
  if is_signed T
  then (x + 2 ^ (w - 1)) mod 2 ^ w - 2 ^ (w - 1)
  else x mod 2 ^ w.

(** Integral promotion: operands narrower than [int] are computed as
    [int]. *)
Definition promote (T : IntType) : IntType :=
  match width T with
  | W8 | W16 => int_t
  | _ => T
  end.

(** A shift by at least the width of the (promoted) left operand has no
    defined result in the language.  The two things hardware and compilers
    do with it are both modelled: the bits are all shifted out
    ([ShiftsOut]), or the count is taken modulo the width ([MasksCount], as
    the x86-64 and AArch64 shift instructions do). *)
Inductive WideShift : Set := ShiftsOut | MasksCount.

(** [a << k] computed in type [T]. *)
Definition shl (ws : WideShift) (T : IntType) (a k : Z) : Z :=
  let w := bits (width T) in
  if k <? w then static_cast T (Z.shiftl a k)
  else match ws with
       | ShiftsOut => 0
       | MasksCount => static_cast T (Z.shiftl a (k mod w))
       end.

(** [a >> k] computed in type [T]. *)
Definition shr (ws : WideShift) (T : IntType) (a k : Z) : Z :=
  let w := bits (width T) in
  if k <? w then Z.shiftr a k
  else match ws with
       | ShiftsOut => 0
       | MasksCount => Z.shiftr a (k mod w)
       end.

End CInt.

(** ** BitScan: findFirstSet and findLastSet on one integer *)

Module BitScan.
Import CInt.

(** The libc primitives [ffs], [ffsl], [ffsll] (string.h): the 1-based
    position of the least significant set bit of the argument, 0 when the
    argument is 0.  The argument is examined from bit 0 upwards over the
    width of its type. *)
Fixpoint ffs_scan (n : nat) (k : Z) (i : Z) : Z :=
  match n with
  | O => 0
  | S n' => if Z.testbit i k then k + 1 else ffs_scan n' (k + 1) i
  end.

Definition ffs (i : Z) : Z := ffs_scan 32 0 i.
Definition ffsl (i : Z) : Z := ffs_scan 64 0 i.
Definition ffsll (i : Z) : Z := ffs_scan 64 0 i.

(** The three overloads for signed types, selected on
    [numeric_limits<T>::digits] (lines 80-112). *)
Definition findFirstSet_signed (T : IntType) (x : Z) : Z :=
  if digits T <=? digits int_t then
    static_cast uint_t (ffs (static_cast int_t x))
  else if digits T <=? digits long_t then
    static_cast uint_t (ffsl (static_cast long_t x))
  else
    static_cast uint_t (ffsll (static_cast llong_t x)).

(** The overload for unsigned types forwards to the signed type of the same
    width (lines 116-126); [findFirstSet] is the overload set. *)
Definition findFirstSet (T : IntType) (x : Z) : Z :=
  if is_signed T then findFirstSet_signed T x
  else findFirstSet_signed (make_signed T) (static_cast (make_signed T) x).

(** [detail::findLastSetPortable] (lines 131-137).  Each turn of the loop
    [while (x >>= 1) ++r;] consumes one unit of fuel. *)
Fixpoint findLastSetPortable_loop (fuel : nat) (x r : Z) : option Z :=
  match fuel with
  | O => None
  | S fuel' =>
      let x' := Z.shiftr x 1 in
      if x' =? 0 then Some r
      else findLastSetPortable_loop fuel' x' (static_cast uint_t (r + 1))
  end.

Definition findLastSetPortable (fuel : nat) (x : Z) : option Z :=
  let r := if x =? 0 then 0 else 1 in
  findLastSetPortable_loop fuel x r.

(** The compiler builtins [__builtin_clz], [__builtin_clzl],
    [__builtin_clzll]: the number of leading zero bits of the operand,
    counted from the most significant bit of its type downwards.  The
    builtins leave the result for 0 open; the count of the whole width
    stands for it here, and no caller below passes 0. *)
Fixpoint clz_scan (n : nat) (x : Z) : Z :=
  match n with
  | O => 0
  | S n' => if Z.testbit x (Z.of_nat n') then 0 else 1 + clz_scan n' x
  end.

Definition builtin_clz (x : Z) : Z := clz_scan 32 x.
Definition builtin_clzl (x : Z) : Z := clz_scan 64 x.
Definition builtin_clzll (x : Z) : Z := clz_scan 64 x.

(** The three overloads of [findLastSet] for unsigned types in the
    [__GNUC__] build (lines 145-180). *)
Definition findLastSet_unsigned (T : IntType) (x : Z) : Z :=
  if digits T <=? digits uint_t then
    static_cast uint_t
      (if x =? 0 then 0
       else static_cast size_t
              (8 * sizeof uint_t - builtin_clz (static_cast uint_t x)))
  else if digits T <=? digits ulong_t then
    static_cast uint_t
      (if x =? 0 then 0
       else static_cast size_t
              (8 * sizeof ulong_t - builtin_clzl (static_cast ulong_t x)))
  else
    static_cast uint_t
      (if x =? 0 then 0
       else static_cast size_t
              (8 * sizeof ullong_t - builtin_clzll (static_cast ullong_t x))).

(** The overload for signed types converts to the unsigned type of the same
    width (lines 195-202). *)
Definition findLastSet (T : IntType) (x : Z) : Z :=
  if is_signed T
  then findLastSet_unsigned (make_unsigned T) (static_cast (make_unsigned T) x)
  else findLastSet_unsigned T x.

End BitScan.

(** ** PowerOfTwo: nextPowTwo *)

Module PowerOfTwo.
Import CInt BitScan.

(** One statement [v |= (v >> count);] of the loop body: the shift is
    computed in the promoted type of [v], the result is stored back into
    [T]. *)
Definition smear (ws : WideShift) (T : IntType) (v count : Z) : Z :=
  static_cast T (Z.lor v (shr ws (promote T) v count)).

(** The body of the loop of [nextPowTwoPortable] (lines 218-225); [i] is a
    [uint32_t]. *)
Definition smear_body (ws : WideShift) (T : IntType) (i v : Z) : Z :=
  let v := smear ws T v i in
  let v := smear ws T v (shl ws uint32_t i 1) in
  let v := smear ws T v (shl ws uint32_t i 2) in
  let v := smear ws T v (shl ws uint32_t i 3) in
  let v := smear ws T v (shl ws uint32_t i 4) in
  let v := smear ws T v (shl ws uint32_t i 5) in
  let v := smear ws T v (shl ws uint32_t i 6) in
  let v := smear ws T v (shl ws uint32_t i 7) in
  v.

(** [for (uint32_t i = 1; i < sizeof(T) * 8; i <<= 8) body]: every test of
    the loop condition consumes one unit of fuel. *)
Fixpoint smear_loop (fuel : nat) (ws : WideShift) (T : IntType) (i v : Z)
  : option Z :=
  match fuel with
  | O => None
  | S fuel' =>
      if static_cast size_t i <? static_cast size_t (sizeof T * 8)
      then smear_loop fuel' ws T (shl ws uint32_t i 8) (smear_body ws T i v)
      else Some v
  end.

(** [detail::nextPowTwoPortable] (lines 206-228), for unsigned [T]. *)
Definition nextPowTwoPortable (fuel : nat) (ws : WideShift) (T : IntType)
  (v : Z) : option Z :=
  if v =? 0 then Some (static_cast T 1)
  else
    match smear_loop fuel ws T 1 (static_cast T (v - 1)) with
    | Some v' => Some (static_cast T (v' + 1))
    | None => None
    end.

(** [nextPowTwo] of the [__GNUC__] build (lines 234-244), for unsigned [T]:
    [v - 1] has the promoted type of [T], and [findLastSet] is called at that
    type; the shift is computed in [unsigned long] and the result converted
    to [T]. *)
Definition nextPowTwo (ws : WideShift) (T : IntType) (v : Z) : Z :=
  if v =? 0 then static_cast T 1
  else
    static_cast T
      (shl ws ulong_t 1
         (findLastSet (promote T) (static_cast (promote T) (v - 1)))).

End PowerOfTwo.

(** ** EndianConvert *)

Module EndianConvert.
Import CInt.

(** The bytes of [x], least significant first. *)
Fixpoint to_bytes (n : nat) (x : Z) : list Z :=
  match n with
  | O => []
  | S n' => Z.land x 255 :: to_bytes n' (Z.shiftr x 8)
  end.

(** The number whose bytes, least significant first, are [l]. *)
Fixpoint of_bytes (l : list Z) : Z :=
  match l with
  | [] => 0
  | b :: l' => Z.lor b (Z.shiftl (of_bytes l') 8)
  end.

(** The glibc primitives [bswap_16], [bswap_32], [bswap_64] (byteswap.h):
    the operand with the order of its bytes reversed. *)
Definition bswap (n : nat) (x : Z) : Z := of_bytes (rev (to_bytes n x)).

Definition bswap_16 (x : Z) : Z := bswap 2 x.
Definition bswap_32 (x : Z) : Z := bswap 4 x.
Definition bswap_64 (x : Z) : Z := bswap 8 x.

(** [detail::EndianIntBase<T>::swap], the eight specialisations generated
    by [FB_GEN] (lines 272-284): the argument is converted to the unsigned
    operand of the primitive and the result back to [T]; for the 8-bit types
    the function is [(x)]. *)
Definition EndianIntBase_swap (T : IntType) (x : Z) : Z :=
  match width T with
  | W8 => x
  | W16 => static_cast T (bswap_16 (static_cast uint16_t x))
  | W32 => static_cast T (bswap_32 (static_cast uint32_t x))
  | W64 => static_cast T (bswap_64 (static_cast uint64_t x))
  end.

(** [Endian::Order], and [Endian::order] as a parameter of the build. *)
Inductive Order : Set := LITTLE | BIG.

(** [detail::EndianInt<T>], one definition per [__BYTE_ORDER]
    (lines 288-308). *)
Definition EndianInt_big (order : Order) (T : IntType) (x : Z) : Z :=
  match order with
  | LITTLE => EndianIntBase_swap T x
  | BIG => x
  end.

Definition EndianInt_little (order : Order) (T : IntType) (x : Z) : Z :=
  match order with
  | LITTLE => x
  | BIG => EndianIntBase_swap T x
  end.

(** [Endian::swap], [Endian::big], [Endian::little] (lines 346-354). *)
Definition swap (T : IntType) (x : Z) : Z := EndianIntBase_swap T x.
Definition big (order : Order) (T : IntType) (x : Z) : Z :=
  EndianInt_big order T x.
Definition little (order : Order) (T : IntType) (x : Z) : Z :=
  EndianInt_little order T x.

End EndianConvert.

(** ** BitRange: BitIterator and findFirstSet over a range of bits *)

Module BitRange.
Import CInt BitScan.

(** What a step of the bit range code can end in besides a value. *)
Inductive error : Set :=
| OutOfFuel      (* the loop was cut off *)
| BadDeref       (* [*base] outside the block sequence *)
| AssertFailed.  (* an [assert] of the source does not hold *)

Inductive res (A : Type) : Type :=
| Ok (a : A)
| Err (e : error).
Arguments Ok {A} a.
Arguments Err {A} e.

Definition bind {A B : Type} (m : res A) (f : A -> res B) : res B :=
  match m with
  | Ok a => f a
  | Err e => Err e
  end.

Notation "x <- m ;; k" := (bind m (fun x => k))
  (at level 61, m at next level, right associativity).

Definition assert (b : bool) : res unit :=
  if b then Ok tt else Err AssertFailed.

(** A [BitIterator]: the base iterator, as the index of its block in the
    underlying sequence, and the member [bitOffset_] (an [ssize_t]). *)
Record BitIterator : Set := mkBitIterator { base : Z; bitOffset_ : Z }.

Section Blocks.

(** [std::iterator_traits<BaseIter>::value_type]. *)
Variable T : IntType.

(** [bitsPerBlock()] (lines 388-394), a [size_t]. *)
Definition bitsPerBlock : Z := digits (make_unsigned T).

(** The constructor (lines 400-404); [bitOffset] is a [size_t]. *)
Definition BitIterator_new (iter : Z) (bitOffset : Z) : res BitIterator :=
  let it := mkBitIterator iter (static_cast ssize_t bitOffset) in
  _ <- assert (static_cast size_t (bitOffset_ it) <? bitsPerBlock) ;;
  Ok it.

(** [makeBitIterator] (lines 481-484). *)
Definition makeBitIterator (iter : Z) : res BitIterator :=
  BitIterator_new iter 0.

(** [bitOffset()] (lines 406-408) returns a [size_t]. *)
Definition bitOffset (it : BitIterator) : Z :=
  static_cast size_t (bitOffset_ it).

(** [advanceToNextBlock] (lines 410-413). *)
Definition advanceToNextBlock (it : BitIterator) : BitIterator :=
  mkBitIterator (base it + 1) 0.

(** [advanceInBlock] (lines 430-433); [n] is a [size_t]. *)
Definition advanceInBlock (it : BitIterator) (n : Z) : res BitIterator :=
  let off :=
    static_cast ssize_t (static_cast size_t (static_cast size_t (bitOffset_ it) + n)) in
  _ <- assert (static_cast size_t off <? bitsPerBlock) ;;
  Ok (mkBitIterator (base it) off).

(** [advance] (lines 439-448).  [n] and [blocks] are [ssize_t], [bpb] is a
    [size_t]: [n / bpb], [n % bpb] and both uses of [bitOffset_] next to
    [bpb] are computed in [size_t], after the usual arithmetic conversions. *)
Definition advance (it : BitIterator) (n : Z) : BitIterator :=
  let bpb := bitsPerBlock in
  let blocks := static_cast ssize_t (static_cast size_t n / bpb) in
  let off :=
    static_cast ssize_t
      (static_cast size_t
         (static_cast size_t (bitOffset_ it) + static_cast size_t n mod bpb)) in
  if bpb <=? static_cast size_t off then
    let off := static_cast ssize_t (static_cast size_t (static_cast size_t off - bpb)) in
    let blocks := static_cast ssize_t (blocks + 1) in
    mkBitIterator (base it + blocks) off
  else
    mkBitIterator (base it + blocks) off.

(** [increment] (lines 450-454). *)
Definition increment (it : BitIterator) : BitIterator :=
  let off := static_cast ssize_t (bitOffset_ it + 1) in
  if static_cast size_t off =? bitsPerBlock
  then advanceToNextBlock (mkBitIterator (base it) off)
  else mkBitIterator (base it) off.

(** [decrement] (lines 456-461). *)
Definition decrement (it : BitIterator) : BitIterator :=
  let old := bitOffset_ it in
  let off := static_cast ssize_t (old - 1) in
  if old =? 0
  then mkBitIterator (base it - 1) (static_cast ssize_t (static_cast size_t (bitsPerBlock - 1)))
  else mkBitIterator (base it) off.

(** [equal] (lines 463-466). *)
Definition equal (a b : BitIterator) : bool :=
  (bitOffset_ a =? bitOffset_ b) && (base a =? base b).

(** [distance_to] (lines 468-472).  The difference of the base iterators is
    a [ptrdiff_t]; its product with the [size_t] [bitsPerBlock()] and the
    sum with the [ssize_t] difference of the offsets are computed in
    [size_t], and the result is returned as an [ssize_t]. *)
Definition distance_to (a b : BitIterator) : Z :=
  static_cast ssize_t
    (static_cast size_t
       (static_cast size_t
          (static_cast size_t (static_cast ssize_t (base b - base a)) * bitsPerBlock)
        + static_cast size_t (static_cast ssize_t (bitOffset_ b - bitOffset_ a)))).

(** [n] single steps, forwards. *)
Fixpoint increments (n : nat) (it : BitIterator) : BitIterator :=
  match n with
  | O => it
  | S n' => increments n' (increment it)
  end.

(** [n] single steps, backwards. *)
Fixpoint decrements (n : nat) (it : BitIterator) : BitIterator :=
  match n with
  | O => it
  | S n' => decrements n' (decrement it)
  end.

(** [*iter] on the underlying sequence of blocks. *)
Definition deref (blocks : list Z) (iter : Z) : res Z :=
  if iter <? 0 then Err BadDeref
  else match nth_error blocks (Z.to_nat iter) with
       | Some v => Ok v
       | None => Err BadDeref
       end.

(** Modelled from the spec: [dereference] (lines 435-437) builds a
    [BitReference] of folly/detail/BitIteratorDetail.h, which is not among
    the sources; read as a [bool], the reference is the bit at the bit
    offset, counted from the least significant bit, of the block under the
    base iterator. *)
Definition dereference (blocks : list Z) (it : BitIterator) : res bool :=
  v <- deref blocks (base it) ;;
  Ok (Z.testbit v (bitOffset it)).

(** [std::find(first, last, true)] on bit iterators, the search that the
    comment on lines 487-490 compares [findFirstSet] with: a loop over
    [operator!=], [operator*] and [operator++], that is over [equal],
    [dereference] and [increment]. *)
Fixpoint std_find (fuel : nat) (blocks : list Z) (first last : BitIterator)
  : res BitIterator :=
  match fuel with
  | O => Err OutOfFuel
  | S fuel' =>
      if equal first last then Ok last
      else
        b <- dereference blocks first ;;
        if b then Ok first
        else std_find fuel' blocks (increment first) last
  end.

Section Scan.

Variable ws : WideShift.

(** [static const value_type one = 1;] *)
Definition one : Z := static_cast T 1.

(** [v &= ~((one << off) - 1);] the right-hand side is computed in the
    promoted type of the block. *)
Definition mask_from (v off : Z) : Z :=
  let P := promote T in
  static_cast T
    (Z.land v (static_cast P (Z.lnot (static_cast P (shl ws P one off - 1))))).

(** [v &= (one << off) - 1;] *)
Definition mask_below (v off : Z) : Z :=
  let P := promote T in
  static_cast T (Z.land v (static_cast P (shl ws P one off - 1))).

(** The common tail of both scans (lines 501-507 and 518-524): [None] when
    the masked block is 0, otherwise the iterator that is returned. *)
Definition found (begin : BitIterator) (v : Z) : res (option BitIterator) :=
  let firstSet := static_cast size_t (findFirstSet T v) in
  if firstSet =? 0 then Ok None
  else
    let firstSet := static_cast size_t (firstSet - 1) in
    _ <- assert (bitOffset begin <=? firstSet) ;;
    it <- advanceInBlock begin (static_cast size_t (firstSet - bitOffset begin)) ;;
    Ok (Some it).

(** How the [while] loop of lines 497-509 ends: by the [return] inside it,
    or by its condition with the current [begin]. *)
Inductive loop_end : Set :=
| Returned (it : BitIterator)
| Exited (begin : BitIterator).

Fixpoint findFirstSet_loop (fuel : nat) (blocks : list Z)
  (begin end_ : BitIterator) : res loop_end :=
  match fuel with
  | O => Err OutOfFuel
  | S fuel' =>
      if base begin =? base end_ then Ok (Exited begin)
      else
        v <- deref blocks (base begin) ;;
        r <- found begin (mask_from v (bitOffset begin)) ;;
        match r with
        | Some it => Ok (Returned it)
        | None => findFirstSet_loop fuel' blocks (advanceToNextBlock begin) end_
        end
  end.

(** [findFirstSet(begin, end)] (lines 491-528). *)
Definition findFirstSet_range (fuel : nat) (blocks : list Z)
  (begin end_ : BitIterator) : res BitIterator :=
  l <- findFirstSet_loop fuel blocks begin end_ ;;
  match l with
  | Returned it => Ok it
  | Exited begin =>
      if negb (bitOffset end_ =? 0) then
        v <- deref blocks (base begin) ;;
        r <- found begin
               (mask_below (mask_from v (bitOffset begin)) (bitOffset end_)) ;;
        match r with
        | Some it => Ok it
        | None => Ok end_
        end
      else Ok end_
  end.

End Scan.
End Blocks.

(** The global position of a bit iterator in a sequence of [T] blocks. *)
Definition position (T : IntType) (it : BitIterator) : Z :=
  base it * bitsPerBlock T + bitOffset_ it.

(** The invariant of the data model: [0 <= bitOffset < bitsPerBlock]. *)
Definition offset_ok (T : IntType) (it : BitIterator) : Prop :=
  0 <= bitOffset_ it < bitsPerBlock T.

(** The bit at global position [p] of a sequence of [T] blocks. *)
Definition bit_at (T : IntType) (blocks : list Z) (p : Z) : bool :=
  match nth_error blocks (Z.to_nat (p / bitsPerBlock T)) with
  | Some v => Z.testbit v (p mod bitsPerBlock T)
  | None => false
  end.

End BitRange.

(** ** UnalignedAccess: loadUnaligned and storeUnaligned *)

Module Unaligned.
Import CInt EndianConvert.

(** Memory is a sequence of bytes and a pointer an index into it.  The
    packed [Unaligned<T>] holds nothing but its [value], at alignment 1, so
    an access touches the [sizeof(T)] bytes of the object representation of
    a [T]: for an integral [T] the bytes of its bit pattern, least
    significant first on a little-endian host and most significant first on
    a big-endian one. *)
Definition representation (order : Order) (T : IntType) (x : Z) : list Z :=
  let bytes := to_bytes (Z.to_nat (sizeof T)) (static_cast (make_unsigned T) x) in
  match order with
  | LITTLE => bytes
  | BIG => rev bytes
  end.

(** The value of type [T] that [sizeof(T)] bytes of memory hold. *)
Definition value_of (order : Order) (T : IntType) (bytes : list Z) : Z :=
  static_cast T
    (of_bytes match order with
              | LITTLE => bytes
              | BIG => rev bytes
              end).

(** [loadUnaligned<T>(p)] (lines 548-553); there is no result where the
    [sizeof(T)] bytes at [p] are not all inside the memory. *)
Definition loadUnaligned (order : Order) (T : IntType) (mem : list Z) (p : nat)
  : option Z :=
  let n := Z.to_nat (sizeof T) in
  if (p + n <=? length mem)%nat
  then Some (value_of order T (firstn n (skipn p mem)))
  else None.

(** [storeUnaligned<T>(p, value)] (lines 558-563), returning the memory
    after the store. *)
Definition storeUnaligned (order : Order) (T : IntType) (mem : list Z) (p : nat)
  (value : Z) : option (list Z) :=
  let n := Z.to_nat (sizeof T) in
  if (p + n <=? length mem)%nat
  then Some (firstn p mem ++ representation order T value ++ skipn (p + n) mem)
  else None.

End Unaligned.

(** ** Vocabulary of the statements *)

Module Spec.
Import CInt BitRange.

(** The 1-based index of the most significant set bit of a non-negative
    number, 0 for 0. *)
Definition fls (y : Z) : Z := if y =? 0 then 0 else 1 + Z.log2 y.

(** [v] is [v0] smeared over [m] positions: bit [j] of [v] is set exactly
    when one of the bits [j .. j+m-1] of [v0] is. *)
Definition smeared (v0 m v : Z) : Prop :=
  forall j, 0 <= j ->
    (Z.testbit v j = true <-> exists i, j <= i < j + m /\ Z.testbit v0 i = true).

(** The values a byte takes. *)
Definition is_byte (b : Z) : Prop := 0 <= b < 256.

(** The state of the smearing loop: a value of the block type that is
    [v0] smeared over [m] positions. *)
Definition smear_inv (T : IntType) (v0 m v : Z) : Prop :=
  0 <= v < 2 ^ bits (width T) /\ smeared v0 m v.

(** The bit iterator at global position [p] of a sequence of [T] blocks. *)
Definition at_position (T : IntType) (p : Z) : BitIterator :=
  mkBitIterator (p / bitsPerBlock T) (p mod bitsPerBlock T).

(** No bit is set at the global positions [lo <= p < hi]. *)
Definition clear_between (T : IntType) (blocks : list Z) (lo hi : Z) : Prop :=
  forall p, lo <= p < hi -> bit_at T blocks p = false.

(** [r] is the first set bit of the bit range [begin, end_): it lies in the
    range, its bit is set, and no bit of the range before it is. *)
Definition first_set_in (T : IntType) (blocks : list Z)
  (begin end_ r : BitIterator) : Prop :=
  offset_ok T r /\
  position T begin <= position T r < position T end_ /\
  bit_at T blocks (position T r) = true /\
  clear_between T blocks (position T begin) (position T r).

(** How the loop over the whole blocks before the block of [end_] ends,
    [n] blocks after [begin]: at the block of [end_] with every bit passed
    clear, or on the first set bit. *)
Definition loop_post (T : IntType) (blocks : list Z)
  (begin end_ : BitIterator) (n : nat) (out : loop_end) : Prop :=
  match out with
  | Exited b =>
      base b = base end_ /\ offset_ok T b /\
      (n = 0%nat -> b = begin) /\ (n <> 0%nat -> bitOffset_ b = 0) /\
      position T begin <= position T b /\
      clear_between T blocks (position T begin) (position T b)
  | Returned r =>
      offset_ok T r /\
      position T begin <= position T r
        < base end_ * bitsPerBlock T /\
      bit_at T blocks (position T r) = true /\
      clear_between T blocks (position T begin) (position T r)
  end.

(** A valid, ordered bit range over [blocks]: both offsets within a block,
    [begin] not after [end_], every block of the range in the sequence, and
    [end_] on a block of the sequence unless its offset is 0. *)
Definition valid_range (T : IntType) (blocks : list Z)
  (begin end_ : BitIterator) : Prop :=
  offset_ok T begin /\ offset_ok T end_ /\
  0 <= base begin /\
  position T begin <= position T end_ /\
  base end_ <= Z.of_nat (length blocks) /\
  (bitOffset_ end_ <> 0 -> base end_ < Z.of_nat (length blocks)).

End Spec.

(** * Properties *)

Import CInt BitScan PowerOfTwo EndianConvert BitRange Unaligned Spec.

(** ** Ranges and conversions *)

(** Membership of a numeral in the range of a concrete type. *)
Ltac solve_range :=
  unfold in_range, min_value, max_value; cbn; lia.

Section Conversions.

Lemma bits_bounds (w : Width) : 8 <= bits w <= 64.
Proof. destruct w; cbn; lia. Qed.

Lemma pow2_bits_split (w : Width) : 2 ^ bits w = 2 * 2 ^ (bits w - 1).
Proof. destruct w; reflexivity. Qed.

Lemma in_rangeb_spec (T : IntType) (x : Z) : in_rangeb T x = true <-> in_range T x.
Proof. unfold in_rangeb, in_range. rewrite andb_true_iff, !Z.leb_le. tauto. Qed.

Lemma static_cast_unsigned (T : IntType) (x : Z) :
  is_signed T = false -> static_cast T x = x mod 2 ^ bits (width T).
Proof. unfold static_cast. now intros ->. Qed.

Lemma static_cast_id (T : IntType) (x : Z) :
  in_range T x -> static_cast T x = x.
Proof.
  unfold in_range, static_cast, min_value, max_value.
  destruct T as [[|] w]; cbn [is_signed width]; intros H.
  - rewrite (pow2_bits_split w) in *.
    rewrite Z.mod_small; lia.
  - apply Z.mod_small. lia.
Qed.

Lemma static_cast_in_range (T : IntType) (x : Z) : in_range T (static_cast T x).
Proof.
  unfold in_range, static_cast, min_value, max_value.
  pose proof (bits_bounds (width T)) as Hb.
  assert (0 < 2 ^ bits (width T)) by (apply Z.pow_pos_nonneg; lia).
  destruct T as [[|] w]; cbn [is_signed width] in *.
  - pose proof (Z.mod_pos_bound (x + 2 ^ (bits w - 1)) (2 ^ bits w)).
    rewrite (pow2_bits_split w) in *. lia.
  - pose proof (Z.mod_pos_bound x (2 ^ bits w)). lia.
Qed.

(** A conversion keeps the bits below the width of the target type. *)
Lemma static_cast_testbit (T : IntType) (x j : Z) :
  0 <= j < bits (width T) ->
  Z.testbit (static_cast T x) j = Z.testbit x j.
Proof.
  intros Hj. unfold static_cast.
  pose proof (bits_bounds (width T)) as Hb.
  destruct (is_signed T).
  - set (w := bits (width T)) in *.
    replace ((x + 2 ^ (w - 1)) mod 2 ^ w - 2 ^ (w - 1))
      with (x - 2 ^ w * ((x + 2 ^ (w - 1)) / 2 ^ w)).
    + rewrite <- (Z.mod_pow2_bits_low _ w j) by lia.
      rewrite <- (Z.mod_pow2_bits_low x w j) by lia.
      f_equal.
      replace (x - 2 ^ w * ((x + 2 ^ (w - 1)) / 2 ^ w))
        with (x + (- ((x + 2 ^ (w - 1)) / 2 ^ w)) * 2 ^ w) by ring.
      apply Z.mod_add. apply Z.pow_nonzero; lia.
    + pose proof (Z.div_mod (x + 2 ^ (w - 1)) (2 ^ w)) as E.
      assert (2 ^ w <> 0) by (apply Z.pow_nonzero; lia).
      specialize (E ltac:(assumption)). lia.
  - apply Z.mod_pow2_bits_low. lia.
Qed.

(** A number all of whose low [w] bits are clear is a multiple of [2^w]. *)
Lemma low_bits_clear (x w : Z) :
  0 <= w ->
  (forall j, 0 <= j < w -> Z.testbit x j = false) ->
  x mod 2 ^ w = 0.
Proof.
  intros Hw H. apply Z.bits_inj'. intros j Hj.
  rewrite Z.bits_0.
  destruct (Z.lt_ge_cases j w).
  - rewrite Z.mod_pow2_bits_low by lia. apply H. lia.
  - apply Z.mod_pow2_bits_high. lia.
Qed.

(** A nonzero value of a type has a set bit inside the type's width. *)
Lemma in_range_nonzero_bit (T : IntType) (x : Z) :
  in_range T x -> x <> 0 ->
  exists j, 0 <= j < bits (width T) /\ Z.testbit x j = true.
Proof.
  intros Hr Hx.
  pose proof (bits_bounds (width T)) as Hb.
  assert (Hm : x mod 2 ^ bits (width T) <> 0).
  { unfold in_range, min_value, max_value in Hr.
    intros E. apply Z.mod_divide in E; [|apply Z.pow_nonzero; lia].
    destruct E as [q E].
    rewrite (pow2_bits_split (width T)) in *.
    assert (0 < 2 ^ (bits (width T) - 1)) by (apply Z.pow_pos_nonneg; lia).
    set (p := 2 ^ (bits (width T) - 1)) in *.
    assert (Hq : q = 0 \/ 1 <= q \/ q <= -1) by lia.
    destruct (is_signed T); destruct Hq as [Hq|[Hq|Hq]]; nia. }
  destruct (Z.eq_dec (x mod 2 ^ bits (width T)) 0) as [E|_]; [contradiction|].
  assert (D : ~ (forall j, 0 <= j < bits (width T) -> Z.testbit x j = false)).
  { intros A. apply Hm. apply low_bits_clear; [lia|exact A]. }
  clear Hm Hr Hx.
  (* a bounded search for the set bit *)
  assert (S : forall n : nat,
             (exists j, 0 <= j < Z.of_nat n /\ Z.testbit x j = true) \/
             (forall j, 0 <= j < Z.of_nat n -> Z.testbit x j = false)).
  { induction n as [|n [IH|IH]].
    - right. intros j Hj. lia.
    - left. destruct IH as [j [Hj Hbit]]. exists j. split; [lia|exact Hbit].
    - destruct (Z.testbit x (Z.of_nat n)) eqn:E.
      + left. exists (Z.of_nat n). split; [lia|exact E].
      + right. intros j Hj.
        destruct (Z.eq_dec j (Z.of_nat n)) as [->|Hne]; [exact E|].
        apply IH. lia. }
  destruct (S (Z.to_nat (bits (width T)))) as [[j [Hj Hbit]]|A].
  - exists j. split; [lia|exact Hbit].
  - exfalso. apply D. intros j Hj. apply A. lia.
Qed.

End Conversions.

(** ** BitScan *)

Section BitScanFacts.

(** What the scan of [n] bits from position [k] upwards returns. *)
Lemma ffs_scan_spec (n : nat) : forall (k i : Z),
  0 <= k ->
  (ffs_scan n k i = 0 /\
   forall j, k <= j < k + Z.of_nat n -> Z.testbit i j = false)
  \/
  (k + 1 <= ffs_scan n k i <= k + Z.of_nat n /\
   Z.testbit i (ffs_scan n k i - 1) = true /\
   forall j, k <= j < ffs_scan n k i - 1 -> Z.testbit i j = false).
Proof.
  induction n as [|n IH]; intros k i Hk; cbn [ffs_scan].
  - left. split; [reflexivity|]. intros j Hj. lia.
  - destruct (Z.testbit i k) eqn:E.
    + right. replace (k + 1 - 1) with k by lia.
      repeat split; try lia. exact E.
    + destruct (IH (k + 1) i ltac:(lia)) as [[H0 Hc]|[Hr [Hb Hc]]].
      * left. split; [exact H0|]. intros j Hj.
        destruct (Z.eq_dec j k) as [->|Hne]; [exact E|]. apply Hc. lia.
      * right. repeat split; try lia; [exact Hb|]. intros j Hj.
        destruct (Z.eq_dec j k) as [->|Hne]; [exact E|]. apply Hc. lia.
Qed.

(** The scan over at least the width of the type of a value finds the
    value's lowest set bit. *)
Lemma ffs_scan_in_range (T : IntType) (n : nat) (x : Z) :
  in_range T x -> bits (width T) <= Z.of_nat n ->
  (x = 0 -> ffs_scan n 0 x = 0) /\
  (x <> 0 ->
   1 <= ffs_scan n 0 x <= bits (width T) /\
   Z.testbit x (ffs_scan n 0 x - 1) = true /\
   forall j, 0 <= j < ffs_scan n 0 x - 1 -> Z.testbit x j = false).
Proof.
  intros Hr Hn. split.
  - intros ->.
    destruct (ffs_scan_spec n 0 0 ltac:(lia)) as [[H0 _]|[_ [Hb _]]]; [exact H0|].
    rewrite Z.bits_0 in Hb. discriminate.
  - intros Hx.
    destruct (in_range_nonzero_bit T x Hr Hx) as [j0 [Hj0 Hbit0]].
    destruct (ffs_scan_spec n 0 x ltac:(lia)) as [[_ Hc]|[Hr' [Hb Hc]]].
    + rewrite Hc in Hbit0 by lia. discriminate.
    + repeat split; try lia; [|exact Hb|exact Hc].
      destruct (Z.lt_ge_cases j0 (ffs_scan n 0 x - 1)) as [Hlt|Hge]; [|lia].
      rewrite Hc in Hbit0 by lia. discriminate.
Qed.

Lemma findFirstSet_signed_spec (T : IntType) (x : Z) :
  is_signed T = true -> in_range T x ->
  (x = 0 -> findFirstSet_signed T x = 0) /\
  (x <> 0 ->
   1 <= findFirstSet_signed T x <= bits (width T) /\
   Z.testbit x (findFirstSet_signed T x - 1) = true /\
   forall j, 0 <= j < findFirstSet_signed T x - 1 -> Z.testbit x j = false).
Proof.
  intros Hs Hr.
  assert (E : exists n : nat,
             bits (width T) <= Z.of_nat n <= 64 /\
             (x = 0 -> findFirstSet_signed T x = 0) /\
             (x <> 0 -> findFirstSet_signed T x = ffs_scan n 0 x)).
  { destruct T as [s w]. cbn in Hs. subst s.
    assert (Hc : forall U n, (bits w <= Z.of_nat n <= 64)%Z ->
                 in_range U x ->
                 (x = 0 -> static_cast uint_t (ffs_scan n 0 (static_cast U x)) = 0) /\
                 (x <> 0 -> static_cast uint_t (ffs_scan n 0 (static_cast U x))
                            = ffs_scan n 0 x)).
    { intros U n Hn HU. rewrite (static_cast_id U x HU).
      destruct (ffs_scan_in_range (mkInt true w) n x Hr ltac:(cbn; lia)) as [H0 H1].
      split.
      - intros Hx. rewrite (H0 Hx). reflexivity.
      - intros Hx. apply static_cast_id.
        destruct (H1 Hx) as [Hb _]. cbn [width] in Hb.
        solve_range. }
    unfold in_range, min_value, max_value in Hr.
    destruct w; cbn in Hr.
    - exists 32%nat. split; [cbn; lia|]. apply (Hc int_t 32%nat); [cbn; lia|].
      solve_range.
    - exists 32%nat. split; [cbn; lia|]. apply (Hc int_t 32%nat); [cbn; lia|].
      solve_range.
    - exists 32%nat. split; [cbn; lia|]. apply (Hc int_t 32%nat); [cbn; lia|].
      solve_range.
    - exists 64%nat. split; [cbn; lia|]. apply (Hc long_t 64%nat); [cbn; lia|].
      solve_range. }
  destruct E as [n [Hn [E0 E1]]].
  destruct (ffs_scan_in_range T n x Hr ltac:(lia)) as [_ H1].
  split; [exact E0|].
  intros Hx. rewrite (E1 Hx). apply H1. exact Hx.
Qed.

Lemma findFirstSet_scalar_spec (T : IntType) (x : Z) :
  in_range T x ->
  (x = 0 -> findFirstSet T x = 0) /\
  (x <> 0 ->
   1 <= findFirstSet T x <= bits (width T) /\
   Z.testbit x (findFirstSet T x - 1) = true /\
   forall j, 0 <= j < findFirstSet T x - 1 -> Z.testbit x j = false) /\
  (is_signed T = false ->
   findFirstSet T x
   = findFirstSet (make_signed T) (static_cast (make_signed T) x)).
Proof.
  intros Hr.
  destruct (is_signed T) eqn:Hs.
  - unfold findFirstSet at 1 2 3 4 5. rewrite Hs.
    destruct (findFirstSet_signed_spec T x Hs Hr) as [H0 H1].
    split; [exact H0|]. split; [exact H1|]. discriminate.
  - unfold findFirstSet. rewrite Hs. unfold make_signed. cbn [is_signed].
    set (S := mkInt true (width T)).
    set (x' := static_cast S x).
    assert (Hr' : in_range S x') by apply static_cast_in_range.
    destruct (findFirstSet_signed_spec S x' eq_refl Hr') as [H0 H1].
    assert (Hbits : forall j, 0 <= j < bits (width T) ->
                              Z.testbit x' j = Z.testbit x j).
    { intros j Hj. apply (static_cast_testbit S). exact Hj. }
    split; [|split; [|reflexivity]].
    + intros ->. apply H0. subst x' S. destruct (width T); reflexivity.
    + intros Hx.
      assert (Hx' : x' <> 0).
      { intros E. destruct (in_range_nonzero_bit T x Hr Hx) as [j [Hj Hb]].
        rewrite <- Hbits, E, Z.bits_0 in Hb by exact Hj. discriminate. }
      destruct (H1 Hx') as [Hb [Ht Hc]].
      change (bits (width S)) with (bits (width T)) in Hb.
      split; [exact Hb|]. split.
      * rewrite <- Hbits by lia. exact Ht.
      * intros j Hj. rewrite <- Hbits by lia. apply Hc. exact Hj.
Qed.

(** C1: scalar [findFirstSet] returns 0 for 0 and otherwise the 1-based
    index of the least significant set bit, for every width and signedness;
    an unsigned argument gives the answer of its bit pattern read at the
    signed type of the same width. *)
Theorem findFirstSet_lowest_set_bit (T : IntType) (x : Z) :
  in_range T x ->
  (x = 0 -> findFirstSet T x = 0) /\
  (x <> 0 ->
   1 <= findFirstSet T x <= bits (width T) /\
   Z.testbit x (findFirstSet T x - 1) = true /\
   forall j, 0 <= j < findFirstSet T x - 1 -> Z.testbit x j = false) /\
  (is_signed T = false ->
   findFirstSet T x
   = findFirstSet (make_signed T) (static_cast (make_signed T) x)).
Proof. exact (findFirstSet_scalar_spec T x). Qed.

Lemma findFirstSet_lowest_set_bit_witness :
  in_range int8_t (-128) /\
  1 <= findFirstSet int8_t (-128) <= 8 /\
  Z.testbit (-128) (findFirstSet int8_t (-128) - 1) = true.
Proof.
  assert (Hr : in_range int8_t (-128)) by solve_range.
  split; [exact Hr|].
  destruct (findFirstSet_lowest_set_bit int8_t (-128) Hr) as [_ [H _]].
  destruct (H ltac:(lia)) as [Hb [Ht _]].
  split; [exact Hb|exact Ht].
Defined.

Example findFirstSet_examples :
  findFirstSet uint32_t 1 = 1 /\ findFirstSet uint16_t 6 = 2 /\
  findFirstSet int8_t (-128) = 8 /\ findFirstSet uint64_t (2 ^ 63) = 64.
Proof. repeat split; reflexivity. Qed.

Example findLastSet_examples :
  findLastSet uint32_t 1 = 1 /\ findLastSet uint32_t 255 = 8 /\
  findLastSet uint32_t 256 = 9 /\ findLastSet int8_t (-1) = 8.
Proof. repeat split; reflexivity. Qed.

(** The leading-zero count of a nonzero [n]-bit operand. *)
Lemma clz_scan_log2 (n : nat) : forall x : Z,
  0 < x < 2 ^ Z.of_nat n ->
  Z.of_nat n - clz_scan n x = 1 + Z.log2 x.
Proof.
  induction n as [|n IH]; intros x Hx.
  - cbn in Hx. lia.
  - cbn [clz_scan].
    assert (Hlog : Z.log2 x < Z.of_nat (S n)) by (apply Z.log2_lt_pow2; lia).
    destruct (Z.testbit x (Z.of_nat n)) eqn:E.
    + destruct (Z.lt_ge_cases (Z.log2 x) (Z.of_nat n)) as [Hlt|Hge]; [|lia].
      rewrite Z.bits_above_log2 in E by lia. discriminate.
    + assert (Hne : Z.log2 x <> Z.of_nat n).
      { intros Heq. rewrite <- Heq, Z.bit_log2 in E by lia. discriminate. }
      assert (Hsmall : x < 2 ^ Z.of_nat n) by (apply Z.log2_lt_pow2; lia).
      specialize (IH x ltac:(lia)). lia.
Qed.

Lemma findLastSet_unsigned_spec (T : IntType) (x : Z) :
  is_signed T = false -> in_range T x ->
  findLastSet_unsigned T x = if x =? 0 then 0 else 1 + Z.log2 x.
Proof.
  intros Hs Hr. destruct T as [s w]. cbn in Hs. subst s.
  unfold in_range, min_value, max_value in Hr. cbn [is_signed width] in Hr.
  destruct (Z.eqb_spec x 0) as [->|Hx].
  { destruct w; reflexivity. }
  assert (Hc : forall (U : IntType) (n : nat),
             is_signed U = false -> Z.of_nat n = bits (width U) ->
             x < 2 ^ bits (width U) ->
             static_cast uint_t
               (static_cast size_t (8 * sizeof U - clz_scan n (static_cast U x)))
             = 1 + Z.log2 x).
  { intros U n HU Hn Hlt.
    rewrite (static_cast_id U x)
      by (unfold in_range, min_value, max_value; rewrite HU; cbv iota; lia).
    assert (E : Z.of_nat n - clz_scan n x = 1 + Z.log2 x).
    { apply clz_scan_log2. rewrite Hn. lia. }
    assert (Hlog : 0 <= Z.log2 x < bits (width U)).
    { split; [apply Z.log2_nonneg|apply Z.log2_lt_pow2; lia]. }
    pose proof (bits_bounds (width U)) as Hb.
    replace (8 * sizeof U) with (Z.of_nat n)
      by (rewrite Hn; unfold sizeof; destruct (width U); reflexivity).
    rewrite E.
    rewrite (static_cast_id size_t (1 + Z.log2 x)), (static_cast_id uint_t);
      [reflexivity| |];
      unfold in_range, min_value, max_value, uint_t, size_t, uint32_t, uint64_t;
      cbn [is_signed width bits]; lia. }
  unfold findLastSet_unsigned.
  rewrite !(proj2 (Z.eqb_neq x 0) Hx).
  destruct w; cbn [digits is_signed width bits uint_t uint32_t ulong_t uint64_t] in *;
    cbn [Z.leb Z.compare Pos.compare Pos.compare_cont CompOpp].
  - apply (Hc uint_t 32%nat); [reflexivity|reflexivity|cbn; lia].
  - apply (Hc uint_t 32%nat); [reflexivity|reflexivity|cbn; lia].
  - apply (Hc uint_t 32%nat); [reflexivity|reflexivity|cbn; lia].
  - apply (Hc ulong_t 64%nat); [reflexivity|reflexivity|cbn; lia].
Qed.

(** C2: scalar [findLastSet] returns 0 for 0; for a nonzero unsigned value
    it returns [1 + floor(log2 x)]; for a signed value it returns what it
    returns for the bit pattern read at the unsigned type of the same
    width. *)
Theorem findLastSet_highest_set_bit (T : IntType) (x : Z) :
  in_range T x ->
  (x = 0 -> findLastSet T x = 0) /\
  (is_signed T = false -> x <> 0 -> findLastSet T x = 1 + Z.log2 x) /\
  (is_signed T = true ->
   findLastSet T x
   = findLastSet (make_unsigned T) (static_cast (make_unsigned T) x) /\
   findLastSet T x
   = if x =? 0 then 0 else 1 + Z.log2 (x mod 2 ^ bits (width T))).
Proof.
  intros Hr.
  assert (HU : forall y, findLastSet_unsigned (make_unsigned T)
                           (static_cast (make_unsigned T) y)
                         = if y mod 2 ^ bits (width T) =? 0 then 0
                           else 1 + Z.log2 (y mod 2 ^ bits (width T))).
  { intros y. rewrite findLastSet_unsigned_spec;
      [|reflexivity|apply static_cast_in_range].
    reflexivity. }
  assert (Hz : x <> 0 -> x mod 2 ^ bits (width T) <> 0).
  { intros Hx E.
    destruct (in_range_nonzero_bit T x Hr Hx) as [j [Hj Hb]].
    rewrite <- (Z.mod_pow2_bits_low x (bits (width T)) j), E, Z.bits_0 in Hb by lia.
    discriminate. }
  destruct (is_signed T) eqn:Hs.
  - assert (E : findLastSet T x
                 = findLastSet_unsigned (make_unsigned T)
                     (static_cast (make_unsigned T) x)).
    { unfold findLastSet. rewrite Hs. reflexivity. }
    split; [|split; [discriminate|intros _; split]].
    + intros ->. rewrite E, HU. destruct (width T); reflexivity.
    + exact E.
    + rewrite E, HU. destruct (Z.eqb_spec x 0) as [->|Hx].
      * destruct (width T); reflexivity.
      * destruct (Z.eqb_spec (x mod 2 ^ bits (width T)) 0) as [E0|_]; [|reflexivity].
        exfalso. exact (Hz Hx E0).
  - unfold findLastSet. rewrite Hs.
    rewrite (findLastSet_unsigned_spec T x Hs Hr).
    split; [|split; [|discriminate]].
    + intros ->. reflexivity.
    + intros _ Hx. destruct (Z.eqb_spec x 0); [contradiction|reflexivity].
Qed.

Lemma findLastSet_highest_set_bit_witness :
  in_range uint16_t 256 /\ findLastSet uint16_t 256 = 1 + Z.log2 256.
Proof.
  assert (Hr : in_range uint16_t 256) by solve_range.
  split; [exact Hr|].
  destruct (findLastSet_highest_set_bit uint16_t 256 Hr) as [_ [H _]].
  apply H; [reflexivity|lia].
Defined.

(** The loop of the portable scan adds [floor(log2 x)] to its counter. *)
Lemma findLastSetPortable_loop_spec (fuel : nat) : forall (x r : Z),
  0 <= x < 2 ^ Z.of_nat (S fuel) ->
  0 <= r -> r + Z.log2 x < 2 ^ 32 ->
  findLastSetPortable_loop (S fuel) x r = Some (r + Z.log2 x).
Proof.
  induction fuel as [|fuel IH]; intros x r Hx Hr Hsum.
  - cbn [findLastSetPortable_loop].
    change (2 ^ Z.of_nat 1) with 2 in Hx.
    assert (D : x = 0 \/ x = 1) by lia.
    destruct D as [-> | ->]; cbn; f_equal; lia.
  - remember (S fuel) as f eqn:Hf.
    cbn [findLastSetPortable_loop].
    rewrite Z.shiftr_div_pow2 by lia. change (2 ^ 1) with 2.
    destruct (Z.eqb_spec (x / 2) 0) as [E|E].
    + assert (D : x = 0 \/ x = 1).
      { pose proof (Z.div_mod x 2 ltac:(lia)).
        pose proof (Z.mod_pos_bound x 2 ltac:(lia)). lia. }
      destruct D as [-> | ->]; cbn; f_equal; lia.
    + assert (Hx2 : 2 <= x).
      { destruct (Z.lt_ge_cases x 2) as [Hlt|Hge]; [|exact Hge].
        exfalso. apply E. apply Z.div_small. lia. }
      pose proof (Z.div_mod x 2 ltac:(lia)) as Hdm.
      pose proof (Z.mod_pos_bound x 2 ltac:(lia)) as Hmb.
      assert (Hl : Z.log2 x = 1 + Z.log2 (x / 2)).
      { pose proof (Z.log2_nonneg (x / 2)) as Hnn.
        destruct (Z.log2_spec (x / 2) ltac:(lia)) as [L U].
        apply Z.log2_unique; [lia|].
        rewrite (Z.pow_succ_r 2 (1 + Z.log2 (x / 2))) by lia.
        rewrite (Z.pow_add_r 2 1) by lia. change (2 ^ 1) with 2.
        rewrite (Z.pow_succ_r 2 (Z.log2 (x / 2))) in U by lia. lia. }
      assert (Hc : static_cast uint_t (r + 1) = r + 1).
      { apply static_cast_id. pose proof (Z.log2_nonneg (x / 2)).
        solve_range. }
      rewrite Hc, IH; [f_equal; lia| |lia|lia].
      assert (Hp : 2 ^ Z.of_nat (S f) = 2 * 2 ^ Z.of_nat f).
      { rewrite Nat2Z.inj_succ. apply Z.pow_succ_r. lia. }
      lia.
Qed.

(** C9: on every [uint64_t], and with the 64 units of fuel its loop can
    need, [detail::findLastSetPortable] returns what the intrinsic-based
    [findLastSet] returns: 0 for 0 and [1 + floor(log2 x)] otherwise.  The
    overload of the build without [__GNUC__] that is to forward to it
    (line 190) reads [detail:findLastSetPortable(x)], with a single colon;
    that text is not an expression of the language, so the overload has no
    embedding here. *)
Theorem findLastSetPortable_agrees (fuel : nat) (x : Z) :
  in_range uint64_t x -> (64 <= fuel)%nat ->
  findLastSetPortable fuel x = Some (findLastSet uint64_t x) /\
  findLastSet uint64_t x = if x =? 0 then 0 else 1 + Z.log2 x.
Proof.
  intros Hr Hf.
  assert (E : findLastSet uint64_t x = if x =? 0 then 0 else 1 + Z.log2 x).
  { apply (findLastSet_unsigned_spec uint64_t x eq_refl Hr). }
  split; [|exact E]. rewrite E.
  unfold in_range, min_value, max_value in Hr. cbn in Hr.
  destruct fuel as [|fuel]; [lia|].
  unfold findLastSetPortable.
  assert (Hlog : 0 <= Z.log2 x < 64).
  { split; [apply Z.log2_nonneg|].
    destruct (Z.eq_dec x 0) as [->|Hx]; [cbn; lia|].
    apply Z.log2_lt_pow2; lia. }
  assert (Hp : 2 ^ 64 <= 2 ^ Z.of_nat (S fuel)) by (apply Z.pow_le_mono_r; lia).
  rewrite findLastSetPortable_loop_spec.
  - destruct (Z.eqb_spec x 0) as [->|Hx]; reflexivity.
  - lia.
  - destruct (x =? 0); lia.
  - destruct (x =? 0); lia.
Qed.

Lemma findLastSetPortable_agrees_witness :
  in_range uint64_t (2 ^ 64 - 1) /\ (64 <= 64)%nat /\
  findLastSetPortable 64 (2 ^ 64 - 1) = Some (findLastSet uint64_t (2 ^ 64 - 1)).
Proof.
  assert (Hr : in_range uint64_t (2 ^ 64 - 1)) by solve_range.
  split; [exact Hr|]. split; [lia|].
  apply (findLastSetPortable_agrees 64 (2 ^ 64 - 1) Hr). lia.
Defined.

End BitScanFacts.

(** ** PowerOfTwo *)

Section PowerOfTwoFacts.

Lemma fls_bounds (y w : Z) : 0 <= w -> 0 <= y < 2 ^ w -> 0 <= fls y <= w.
Proof.
  intros Hw Hy. unfold fls. destruct (Z.eqb_spec y 0) as [->|Hne]; [lia|].
  pose proof (Z.log2_nonneg y).
  assert (Z.log2 y < w) by (apply Z.log2_lt_pow2; lia). lia.
Qed.

(** [y < 2 ^ fls y], and [2 ^ (fls y - 1) <= y] for positive [y]. *)
Lemma fls_above (y : Z) : 0 <= y -> y < 2 ^ fls y.
Proof.
  intros Hy. unfold fls. destruct (Z.eqb_spec y 0) as [->|Hne]; [cbn; lia|].
  destruct (Z.log2_spec y ltac:(lia)) as [_ U].
  replace (1 + Z.log2 y) with (Z.succ (Z.log2 y)) by lia. exact U.
Qed.

Lemma fls_below (y : Z) : 0 < y -> 2 ^ (fls y - 1) <= y.
Proof.
  intros Hy. unfold fls. destruct (Z.eqb_spec y 0) as [->|Hne]; [lia|].
  destruct (Z.log2_spec y ltac:(lia)) as [L _].
  replace (1 + Z.log2 y - 1) with (Z.log2 y) by lia. exact L.
Qed.

Lemma testbit_fls (y j : Z) :
  0 <= y -> 0 <= j ->
  ((exists i, j <= i /\ Z.testbit y i = true) <-> j < fls y).
Proof.
  intros Hy Hj. unfold fls. destruct (Z.eqb_spec y 0) as [->|Hne].
  - split; [|lia]. intros [i [_ Hb]]. rewrite Z.bits_0 in Hb. discriminate.
  - split.
    + intros [i [Hi Hb]].
      destruct (Z.lt_ge_cases (Z.log2 y) i) as [Hlt|Hge]; [|lia].
      rewrite Z.bits_above_log2 in Hb by lia. discriminate.
    + intros Hlt. exists (Z.log2 y). split; [lia|]. apply Z.bit_log2. lia.
Qed.

Lemma below_pow2_of_bits (x w : Z) :
  0 <= x -> 0 <= w ->
  (forall j, w <= j -> Z.testbit x j = false) -> x < 2 ^ w.
Proof.
  intros Hx Hw H.
  destruct (Z.eq_dec x 0) as [->|Hne]; [apply Z.pow_pos_nonneg; lia|].
  apply Z.log2_lt_pow2; [lia|].
  destruct (Z.lt_ge_cases (Z.log2 x) w) as [Hlt|Hge]; [exact Hlt|].
  specialize (H (Z.log2 x) Hge). rewrite Z.bit_log2 in H by lia. discriminate.
Qed.

Lemma bits_above_pow2 (x w j : Z) :
  0 <= x < 2 ^ w -> w <= j -> Z.testbit x j = false.
Proof.
  intros Hx Hj.
  destruct (Z.eq_dec x 0) as [->|Hne]; [apply Z.bits_0|].
  assert (0 <= w).
  { destruct (Z.lt_ge_cases w 0) as [Hneg|]; [|lia].
    rewrite Z.pow_neg_r in Hx by lia. lia. }
  apply Z.bits_above_log2; [lia|].
  assert (Z.log2 x < w) by (apply Z.log2_lt_pow2; lia). lia.
Qed.

Lemma smeared_start (v0 : Z) : smeared v0 1 v0.
Proof.
  intros j Hj. split.
  - intros Hb. exists j. split; [lia|exact Hb].
  - intros [i [Hi Hb]]. replace j with i by lia. exact Hb.
Qed.

(** One real step [v |= v >> c] widens the smear by [c]. *)
Lemma smeared_step (v0 m c v : Z) :
  0 < c <= m -> smeared v0 m v -> smeared v0 (m + c) (Z.lor v (Z.shiftr v c)).
Proof.
  intros Hc Hv j Hj.
  rewrite Z.lor_spec, Z.shiftr_spec, orb_true_iff by lia.
  rewrite (Hv j Hj), (Hv (j + c) ltac:(lia)).
  split.
  - intros [[i [Hi Hb]]|[i [Hi Hb]]]; exists i; (split; [lia|exact Hb]).
  - intros [i [Hi Hb]].
    destruct (Z.lt_ge_cases i (j + m)).
    + left. exists i. split; [lia|exact Hb].
    + right. exists i. split; [lia|exact Hb].
Qed.

Lemma lor_shiftr_bound (v c w : Z) :
  0 <= v < 2 ^ w -> 0 <= c -> 0 <= w -> 0 <= Z.lor v (Z.shiftr v c) < 2 ^ w.
Proof.
  intros Hv Hc Hw.
  assert (Hs : 0 <= Z.shiftr v c) by (apply Z.shiftr_nonneg; lia).
  split; [apply Z.lor_nonneg; lia|].
  apply below_pow2_of_bits; [apply Z.lor_nonneg; lia|lia|].
  intros j Hj. rewrite Z.lor_spec, Z.shiftr_spec by lia.
  rewrite (bits_above_pow2 v w j), (bits_above_pow2 v w (j + c)) by lia.
  reflexivity.
Qed.

(** A smear over at least the width of the value is all ones below the
    highest set bit. *)
Lemma smeared_full (v0 m w v : Z) :
  0 <= v0 < 2 ^ w -> 0 <= v -> 0 <= w <= m -> smeared v0 m v ->
  v = 2 ^ fls v0 - 1.
Proof.
  intros Hv0 Hv Hw Hs.
  pose proof (fls_bounds v0 w ltac:(lia) Hv0) as Hf.
  replace (2 ^ fls v0 - 1) with (Z.ones (fls v0)) by (rewrite Z.ones_equiv; lia).
  apply Z.bits_inj'. intros j Hj.
  destruct (Z.lt_ge_cases j (fls v0)) as [Hlt|Hge].
  - rewrite Z.ones_spec_low by lia.
    apply (Hs j Hj).
    destruct (proj2 (testbit_fls v0 j ltac:(lia) Hj) Hlt) as [i [Hi Hb]].
    exists i. split; [|exact Hb].
    split; [lia|].
    destruct (Z.lt_ge_cases i w) as [Hiw|Hiw]; [lia|].
    rewrite (bits_above_pow2 v0 w i) in Hb by lia. discriminate.
  - rewrite Z.ones_spec_high by lia.
    destruct (Z.testbit v j) eqn:E; [|reflexivity].
    destruct (proj1 (Hs j Hj) E) as [i [Hi Hb]].
    assert (j < fls v0); [|lia].
    apply testbit_fls; [lia|lia|]. exists i. split; [lia|exact Hb].
Qed.

Lemma smear_real_inv (ws : WideShift) (T : IntType) (v0 m v c : Z) :
  is_signed T = false ->
  smear_inv T v0 m v ->
  0 < c <= m -> c < bits (width (promote T)) ->
  smear_inv T v0 (m + c) (smear ws T v c).
Proof.
  intros Hs [Hb Hsm] Hc Hw.
  pose proof (bits_bounds (width T)) as Hbits.
  assert (E : smear ws T v c = Z.lor v (Z.shiftr v c)).
  { unfold smear, shr.
    destruct (Z.ltb_spec c (bits (width (promote T)))) as [_|]; [|lia].
    apply static_cast_id.
    pose proof (lor_shiftr_bound v c (bits (width T)) Hb ltac:(lia) ltac:(lia)).
    unfold in_range, min_value, max_value. rewrite Hs. lia. }
  rewrite E. split.
  - apply lor_shiftr_bound; lia.
  - apply smeared_step; assumption.
Qed.

Lemma smear_wide_inv (ws : WideShift) (T : IntType) (v0 m v c : Z) :
  is_signed T = false ->
  smear_inv T v0 m v ->
  bits (width (promote T)) <= c -> c mod bits (width (promote T)) = 0 ->
  smear_inv T v0 m (smear ws T v c).
Proof.
  intros Hs [Hb Hsm] Hc Hm.
  assert (E : smear ws T v c = v).
  { unfold smear, shr.
    destruct (Z.ltb_spec c (bits (width (promote T)))) as [|_]; [lia|].
    assert (Hr : in_range T v).
    { unfold in_range, min_value, max_value. rewrite Hs. lia. }
    destruct ws.
    - rewrite Z.lor_0_r. apply static_cast_id, Hr.
    - rewrite Hm, Z.shiftr_0_r, Z.lor_diag. apply static_cast_id, Hr. }
  rewrite E. split; assumption.
Qed.

(** The loop body, entered with [i = 1], sets every bit below the highest
    set bit of its input, whatever an over-wide shift does. *)
Lemma smear_body_spec (ws : WideShift) (T : IntType) (v0 : Z) :
  is_signed T = false -> 0 <= v0 < 2 ^ bits (width T) ->
  smear_body ws T 1 v0 = 2 ^ fls v0 - 1.
Proof.
  intros Hs Hv0.
  assert (I0 : smear_inv T v0 1 v0) by (split; [exact Hv0|apply smeared_start]).
  unfold smear_body.
  change (shl ws uint32_t 1 1) with 2. change (shl ws uint32_t 1 2) with 4.
  change (shl ws uint32_t 1 3) with 8. change (shl ws uint32_t 1 4) with 16.
  change (shl ws uint32_t 1 5) with 32. change (shl ws uint32_t 1 6) with 64.
  change (shl ws uint32_t 1 7) with 128.
  destruct T as [s w]. cbn in Hs. subst s.
  pose proof (smear_real_inv ws (mkInt false w) v0 _ _ 1 eq_refl I0
                ltac:(lia) ltac:(destruct w; cbn; lia)) as I1.
  pose proof (smear_real_inv ws (mkInt false w) v0 _ _ 2 eq_refl I1
                ltac:(lia) ltac:(destruct w; cbn; lia)) as I2.
  pose proof (smear_real_inv ws (mkInt false w) v0 _ _ 4 eq_refl I2
                ltac:(lia) ltac:(destruct w; cbn; lia)) as I3.
  pose proof (smear_real_inv ws (mkInt false w) v0 _ _ 8 eq_refl I3
                ltac:(lia) ltac:(destruct w; cbn; lia)) as I4.
  pose proof (smear_real_inv ws (mkInt false w) v0 _ _ 16 eq_refl I4
                ltac:(lia) ltac:(destruct w; cbn; lia)) as I5.
  assert (I8 : exists m, bits w <= m /\
                 smear_inv (mkInt false w) v0 m
                   (smear ws (mkInt false w)
                      (smear ws (mkInt false w)
                         (smear ws (mkInt false w)
                            (smear ws (mkInt false w)
                               (smear ws (mkInt false w)
                                  (smear ws (mkInt false w)
                                     (smear ws (mkInt false w)
                                        (smear ws (mkInt false w) v0 1) 2) 4) 8) 16)
                            32) 64) 128)).
  { destruct w.
    - exists (1 + 1 + 2 + 4 + 8 + 16). split; [cbn; lia|].
      repeat (apply smear_wide_inv; [reflexivity| |cbn; lia|reflexivity]).
      exact I5.
    - exists (1 + 1 + 2 + 4 + 8 + 16). split; [cbn; lia|].
      repeat (apply smear_wide_inv; [reflexivity| |cbn; lia|reflexivity]).
      exact I5.
    - exists (1 + 1 + 2 + 4 + 8 + 16). split; [cbn; lia|].
      repeat (apply smear_wide_inv; [reflexivity| |cbn; lia|reflexivity]).
      exact I5.
    - exists (1 + 1 + 2 + 4 + 8 + 16 + 32). split; [cbn; lia|].
      repeat (apply smear_wide_inv; [reflexivity| |cbn; lia|reflexivity]).
      apply smear_real_inv; [reflexivity|exact I5|lia|cbn; lia]. }
  destruct I8 as [m [Hm [Hb Hsm]]].
  pose proof (bits_bounds w).
  apply (smeared_full v0 m (bits w)); [exact Hv0|lia|lia|exact Hsm].
Qed.

(** The loop runs its body once: [i] is 1, then 256. *)
Lemma smear_loop_once (fuel : nat) (ws : WideShift) (T : IntType) (v : Z) :
  (2 <= fuel)%nat ->
  smear_loop fuel ws T 1 v = Some (smear_body ws T 1 v).
Proof.
  intros Hf. destruct fuel as [|[|fuel]]; [lia|lia|].
  destruct T as [s [| | |]]; reflexivity.
Qed.

Lemma nextPowTwoPortable_spec (fuel : nat) (ws : WideShift) (T : IntType) (v : Z) :
  is_signed T = false -> in_range T v -> (2 <= fuel)%nat ->
  nextPowTwoPortable fuel ws T v
  = Some (if v =? 0 then 1 else 2 ^ fls (v - 1) mod 2 ^ bits (width T)).
Proof.
  intros Hs Hr Hf. unfold nextPowTwoPortable.
  pose proof (bits_bounds (width T)) as Hb.
  unfold in_range, min_value, max_value in Hr. rewrite Hs in Hr.
  destruct (Z.eqb_spec v 0) as [->|Hv].
  - f_equal. destruct T as [s w]. cbn in Hs. subst s. destruct w; reflexivity.
  - assert (Hc : static_cast T (v - 1) = v - 1).
    { apply static_cast_id. unfold in_range, min_value, max_value.
      rewrite Hs. lia. }
    rewrite Hc, smear_loop_once by exact Hf.
    rewrite smear_body_spec by (try exact Hs; lia).
    f_equal. rewrite (static_cast_unsigned T _ Hs). f_equal. lia.
Qed.

Lemma findLastSet_promoted (T : IntType) (y : Z) :
  is_signed T = false -> 0 <= y < 2 ^ bits (width T) - 1 ->
  findLastSet (promote T) (static_cast (promote T) y) = fls y.
Proof.
  intros Hs Hy. destruct T as [s w]. cbn in Hs. subst s.
  cbn [width] in Hy. unfold fls.
  assert (Hn : forall U, is_signed U = false ->
               in_range U y -> findLastSet U (static_cast U y)
                               = if y =? 0 then 0 else 1 + Z.log2 y).
  { intros U HU Hin. rewrite (static_cast_id U y Hin).
    unfold findLastSet. rewrite HU. apply findLastSet_unsigned_spec; assumption. }
  assert (Hi : y < 2 ^ 31 ->
               findLastSet int_t (static_cast int_t y)
               = if y =? 0 then 0 else 1 + Z.log2 y).
  { intros H31. rewrite (static_cast_id int_t y)
      by solve_range.
    change (findLastSet int_t y)
      with (findLastSet_unsigned uint_t (static_cast uint_t y)).
    rewrite (static_cast_id uint_t y)
      by solve_range.
    apply findLastSet_unsigned_spec; [reflexivity|].
    solve_range. }
  destruct w; cbn [promote width bits] in *.
  - apply Hi. lia.
  - apply Hi. lia.
  - apply Hn; [reflexivity|solve_range].
  - apply Hn; [reflexivity|solve_range].
Qed.

Lemma nextPowTwo_eq (ws : WideShift) (T : IntType) (v : Z) :
  is_signed T = false -> in_range T v ->
  nextPowTwo ws T v
  = if v =? 0 then 1 else static_cast T (shl ws ulong_t 1 (fls (v - 1))).
Proof.
  intros Hs Hr. unfold nextPowTwo.
  unfold in_range, min_value, max_value in Hr. rewrite Hs in Hr.
  destruct (Z.eqb_spec v 0) as [->|Hv].
  - destruct T as [s w]. cbn in Hs. subst s. destruct w; reflexivity.
  - rewrite findLastSet_promoted by (try exact Hs; lia). reflexivity.
Qed.

(** In range, the shift of the fast path is an ordinary power of two. *)
Lemma shl_one_small (ws : WideShift) (k : Z) :
  0 <= k < 64 -> shl ws ulong_t 1 k = 2 ^ k.
Proof.
  intros Hk. unfold shl. cbn [ulong_t uint64_t width bits].
  destruct (Z.ltb_spec k 64) as [_|]; [|lia].
  rewrite Z.shiftl_1_l. apply static_cast_id.
  unfold in_range, min_value, max_value, ulong_t, uint64_t.
  cbn [is_signed width bits].
  assert (0 < 2 ^ k) by (apply Z.pow_pos_nonneg; lia).
  assert (2 ^ k < 2 ^ 64) by (apply Z.pow_lt_mono_r; lia). lia.
Qed.

(** C4: for an unsigned [v] whose enclosing power of two is representable
    in its type, [nextPowTwo v] is a power of two, is at least [v], and no
    power of two lies strictly between [v] and it; the five values the
    specification lists. *)
Theorem nextPowTwo_smallest_enclosing (ws : WideShift) (T : IntType) :
  is_signed T = false ->
  (forall v, in_range T v -> v <= 2 ^ (bits (width T) - 1) ->
     (exists k, 0 <= k < bits (width T) /\ nextPowTwo ws T v = 2 ^ k) /\
     v <= nextPowTwo ws T v /\
     (forall j, 0 <= j -> ~ (v < 2 ^ j < nextPowTwo ws T v))) /\
  nextPowTwo ws T 0 = 1 /\ nextPowTwo ws T 1 = 1 /\ nextPowTwo ws T 5 = 8 /\
  nextPowTwo ws T 8 = 8 /\ nextPowTwo ws T 9 = 16.
Proof.
  intros Hs. split.
  - intros v Hr Hv.
    pose proof (bits_bounds (width T)) as Hb.
    rewrite (nextPowTwo_eq ws T v Hs Hr).
    unfold in_range, min_value, max_value in Hr. rewrite Hs in Hr.
    destruct (Z.eqb_spec v 0) as [->|Hne].
    + split; [exists 0; split; [lia|reflexivity]|]. split; [lia|].
      intros j Hj [H1 H2].
      assert (0 < 2 ^ j) by (apply Z.pow_pos_nonneg; lia). lia.
    + remember (v - 1) as y eqn:Hyv.
      assert (Hy : 0 <= y < 2 ^ (bits (width T) - 1)) by lia.
      pose proof (fls_bounds y (bits (width T) - 1) ltac:(lia) Hy) as Hk.
      pose proof (fls_above y ltac:(lia)) as Ha.
      rewrite shl_one_small by lia.
      assert (Hlt : 2 ^ fls y < 2 ^ bits (width T)) by (apply Z.pow_lt_mono_r; lia).
      assert (Hpos : 0 < 2 ^ fls y) by (apply Z.pow_pos_nonneg; lia).
      rewrite static_cast_id
        by (unfold in_range, min_value, max_value; rewrite Hs; lia).
      split; [exists (fls y); split; [lia|reflexivity]|]. split; [lia|].
      intros j Hj [H1 H2].
      assert (Hjk : j < fls y).
      { destruct (Z.lt_ge_cases j (fls y)) as [Hl|Hg]; [exact Hl|].
        assert (2 ^ fls y <= 2 ^ j) by (apply Z.pow_le_mono_r; lia). lia. }
      destruct (Z.eq_dec y 0) as [E|E].
      * rewrite E in Hjk. cbn in Hjk. lia.
      * pose proof (fls_below y ltac:(lia)) as Hbl.
        assert (2 ^ j <= 2 ^ (fls y - 1)) by (apply Z.pow_le_mono_r; lia).
        lia.
  - destruct T as [s w]. cbn in Hs. subst s.
    destruct ws, w; repeat split; reflexivity.
Qed.

Lemma nextPowTwo_smallest_enclosing_witness :
  is_signed uint8_t = false /\
  in_range uint8_t 5 /\ 5 <= 2 ^ (bits (width uint8_t) - 1) /\
  5 <= nextPowTwo MasksCount uint8_t 5 /\
  nextPowTwo MasksCount uint8_t 9 = 16.
Proof.
  assert (Hr : in_range uint8_t 5) by solve_range.
  assert (Hv : 5 <= 2 ^ (bits (width uint8_t) - 1)) by (cbn; lia).
  destruct (nextPowTwo_smallest_enclosing MasksCount uint8_t eq_refl)
    as [H [_ [_ [_ [_ H9]]]]].
  destruct (H 5 Hr Hv) as [_ [Hge _]].
  repeat split; try assumption; apply Hr.
Defined.

(** C8 as stated fails: on a host that takes the count of an over-wide
    shift modulo the width, the fast path returns 1 for the 64-bit value
    [2^63 + 1], where [1ul] is shifted by 64, and the portable path
    returns 0. *)
Lemma nextPowTwo_paths_differ :
  in_range uint64_t (2 ^ 63 + 1) /\
  nextPowTwoPortable 2 MasksCount uint64_t (2 ^ 63 + 1) = Some 0 /\
  nextPowTwo MasksCount uint64_t (2 ^ 63 + 1) = 1 /\
  nextPowTwoPortable 2 MasksCount uint64_t (2 ^ 63 + 1)
  <> Some (nextPowTwo MasksCount uint64_t (2 ^ 63 + 1)).
Proof.
  split; [solve_range|].
  split; [vm_compute; reflexivity|].
  split; [vm_compute; reflexivity|].
  vm_compute. discriminate.
Qed.

(** C8, amended: the fast path and the portable path of [nextPowTwo] return
    the same value for every unsigned [v] of width 8, 16 and 32, and for
    every 64-bit [v <= 2^63]; for the remaining 64-bit values they agree
    where an over-wide shift shifts every bit out. *)
Theorem nextPowTwo_paths_agree (fuel : nat) (ws : WideShift) (T : IntType) (v : Z) :
  is_signed T = false -> in_range T v -> (2 <= fuel)%nat ->
  width T <> W64 \/ v <= 2 ^ 63 \/ ws = ShiftsOut ->
  nextPowTwoPortable fuel ws T v = Some (nextPowTwo ws T v).
Proof.
  intros Hs Hr Hf Hc.
  rewrite (nextPowTwoPortable_spec fuel ws T v Hs Hr Hf).
  rewrite (nextPowTwo_eq ws T v Hs Hr). f_equal.
  destruct (Z.eqb_spec v 0) as [_|Hne]; [reflexivity|].
  pose proof (bits_bounds (width T)) as Hb.
  unfold in_range, min_value, max_value in Hr. rewrite Hs in Hr.
  pose proof (fls_bounds (v - 1) (bits (width T)) ltac:(lia) ltac:(lia)) as Hk.
  destruct (Z.lt_ge_cases (fls (v - 1)) 64) as [Hlt|Hge].
  - rewrite shl_one_small by lia. symmetry. apply static_cast_unsigned, Hs.
  - assert (Hk64 : fls (v - 1) = 64) by lia.
    assert (Hw : width T = W64) by (destruct (width T); cbn in Hb, Hk; try lia; reflexivity).
    destruct Hc as [Hc|[Hc|Hc]].
    + contradiction.
    + exfalso.
      pose proof (fls_bounds (v - 1) 63 ltac:(lia) ltac:(lia)). lia.
    + subst ws. rewrite Hk64, Hw. destruct T as [s w]. cbn in Hs, Hw. subst s w.
      reflexivity.
Qed.

Lemma nextPowTwo_paths_agree_witness :
  nextPowTwoPortable 2 MasksCount uint32_t (2 ^ 31 + 1)
  = Some (nextPowTwo MasksCount uint32_t (2 ^ 31 + 1)).
Proof.
  apply nextPowTwo_paths_agree.
  - reflexivity.
  - solve_range.
  - lia.
  - left. discriminate.
Defined.

End PowerOfTwoFacts.

(** ** EndianConvert *)

Section EndianFacts.

Lemma lor_shiftl_8 (b r : Z) :
  is_byte b -> Z.lor b (Z.shiftl r 8) = b + 256 * r.
Proof.
  intros Hb.
  assert (Hd : Z.land b (Z.shiftl r 8) = 0).
  { apply Z.bits_inj'. intros j Hj. rewrite Z.land_spec, Z.bits_0.
    destruct (Z.lt_ge_cases j 8).
    - rewrite Z.shiftl_spec_low by lia. apply andb_false_r.
    - rewrite (bits_above_pow2 b 8 j) by (unfold is_byte in Hb; lia).
      reflexivity. }
  rewrite <- Z.lxor_lor by exact Hd.
  rewrite <- Z.add_nocarry_lxor by exact Hd.
  rewrite Z.shiftl_mul_pow2 by lia. change (2 ^ 8) with 256. lia.
Qed.

Lemma land_255 (x : Z) : Z.land x 255 = x mod 256.
Proof. change 255 with (Z.ones 8). rewrite Z.land_ones by lia. reflexivity. Qed.

Lemma to_bytes_length (n : nat) : forall x, length (to_bytes n x) = n.
Proof. induction n as [|n IH]; intros x; cbn; [reflexivity|]. now rewrite IH. Qed.

Lemma to_bytes_bytes (n : nat) : forall x, Forall is_byte (to_bytes n x).
Proof.
  induction n as [|n IH]; intros x; cbn [to_bytes]; constructor.
  - rewrite land_255. unfold is_byte. apply Z.mod_pos_bound. lia.
  - apply IH.
Qed.

Lemma of_bytes_bound (l : list Z) :
  Forall is_byte l -> 0 <= of_bytes l < 2 ^ (8 * Z.of_nat (length l)).
Proof.
  induction 1 as [|b l Hb Hl IH]; cbn [of_bytes length].
  - cbn. lia.
  - rewrite lor_shiftl_8 by exact Hb.
    replace (8 * Z.of_nat (S (length l))) with (8 + 8 * Z.of_nat (length l)) by lia.
    rewrite Z.pow_add_r by lia. change (2 ^ 8) with 256.
    unfold is_byte in Hb. nia.
Qed.

Lemma of_bytes_to_bytes (n : nat) : forall x,
  of_bytes (to_bytes n x) = x mod 2 ^ (8 * Z.of_nat n).
Proof.
  induction n as [|n IH]; intros x; cbn [to_bytes of_bytes].
  - cbn. now rewrite Z.mod_1_r.
  - rewrite lor_shiftl_8
      by (rewrite land_255; unfold is_byte; apply Z.mod_pos_bound; lia).
    rewrite IH, land_255, Z.shiftr_div_pow2 by lia. change (2 ^ 8) with 256.
    replace (8 * Z.of_nat (S n)) with (8 + 8 * Z.of_nat n) by lia.
    rewrite Z.pow_add_r by lia. change (2 ^ 8) with 256.
    symmetry. apply Z.rem_mul_r; [lia|].
    apply Z.pow_pos_nonneg; lia.
Qed.

Lemma to_bytes_of_bytes (l : list Z) :
  Forall is_byte l -> to_bytes (length l) (of_bytes l) = l.
Proof.
  induction 1 as [|b l Hb Hl IH]; cbn [to_bytes of_bytes length]; [reflexivity|].
  rewrite lor_shiftl_8 by exact Hb.
  rewrite land_255, Z.shiftr_div_pow2 by lia. change (2 ^ 8) with 256.
  unfold is_byte in Hb.
  replace ((b + 256 * of_bytes l) mod 256) with b.
  - replace ((b + 256 * of_bytes l) / 256) with (of_bytes l).
    + now rewrite IH.
    + replace (b + 256 * of_bytes l) with (b + of_bytes l * 256) by lia.
      rewrite Z.div_add, (Z.div_small b 256) by lia. lia.
  - replace (b + 256 * of_bytes l) with (b + of_bytes l * 256) by lia.
    rewrite Z.mod_add by lia. symmetry. apply Z.mod_small. lia.
Qed.

Lemma bswap_bound (n : nat) (x : Z) : 0 <= bswap n x < 2 ^ (8 * Z.of_nat n).
Proof.
  unfold bswap.
  assert (Hl : length (rev (to_bytes n x)) = n)
    by (rewrite length_rev; apply to_bytes_length).
  pose proof (of_bytes_bound (rev (to_bytes n x))
                (Forall_rev (to_bytes_bytes n x))) as H.
  rewrite Hl in H. exact H.
Qed.

(** Reversing the bytes twice gives the operand back. *)
Lemma bswap_involutive (n : nat) (x : Z) :
  0 <= x < 2 ^ (8 * Z.of_nat n) -> bswap n (bswap n x) = x.
Proof.
  intros Hx. unfold bswap.
  assert (Hl : length (rev (to_bytes n x)) = n)
    by (rewrite length_rev; apply to_bytes_length).
  pose proof (to_bytes_of_bytes (rev (to_bytes n x))
                (Forall_rev (to_bytes_bytes n x))) as H.
  rewrite Hl in H. rewrite H.
  rewrite rev_involutive, of_bytes_to_bytes.
  apply Z.mod_small. exact Hx.
Qed.

Example bswap_16_example : bswap_16 0x1234 = 0x3412.
Proof. reflexivity. Qed.

Example bswap_32_example : bswap_32 0x11223344 = 0x44332211.
Proof. reflexivity. Qed.

Example bswap_64_example : bswap_64 0x0102030405060708 = 0x0807060504030201.
Proof. reflexivity. Qed.

Lemma static_cast_mod (T : IntType) (y : Z) :
  static_cast T y mod 2 ^ bits (width T) = y mod 2 ^ bits (width T).
Proof.
  pose proof (bits_bounds (width T)) as Hb.
  assert (Hm : 2 ^ bits (width T) <> 0) by (apply Z.pow_nonzero; lia).
  unfold static_cast. destruct (is_signed T).
  - rewrite Zminus_mod_idemp_l. f_equal. lia.
  - apply Z.mod_mod. exact Hm.
Qed.

Lemma static_cast_of_mod (T : IntType) (y : Z) :
  static_cast T (y mod 2 ^ bits (width T)) = static_cast T y.
Proof.
  pose proof (bits_bounds (width T)) as Hb.
  assert (Hm : 2 ^ bits (width T) <> 0) by (apply Z.pow_nonzero; lia).
  unfold static_cast. destruct (is_signed T).
  - rewrite Zplus_mod_idemp_l. reflexivity.
  - apply Z.mod_mod. exact Hm.
Qed.

(** Swapping through the unsigned type of the same width, twice. *)
Lemma swap_through_unsigned (T : IntType) (n : nat) (x : Z) :
  bits (width T) = 8 * Z.of_nat n -> in_range T x ->
  let U := make_unsigned T in
  static_cast T (bswap n (static_cast U (static_cast T (bswap n (static_cast U x)))))
  = x.
Proof.
  intros Hn Hr U.
  pose proof (bits_bounds (width T)) as Hb.
  assert (HU : forall y, static_cast U y = y mod 2 ^ bits (width T)).
  { intros y. apply (static_cast_unsigned U). reflexivity. }
  rewrite !HU.
  set (u := x mod 2 ^ bits (width T)).
  assert (Hu : 0 <= u < 2 ^ (8 * Z.of_nat n)).
  { rewrite <- Hn. apply Z.mod_pos_bound. apply Z.pow_pos_nonneg; lia. }
  rewrite static_cast_mod.
  rewrite (Z.mod_small (bswap n u)) by (rewrite Hn; apply bswap_bound).
  rewrite bswap_involutive by exact Hu.
  unfold u. rewrite static_cast_of_mod. apply static_cast_id, Hr.
Qed.

Lemma swap_involutive (T : IntType) (x : Z) :
  in_range T x -> swap T (swap T x) = x.
Proof.
  intros Hr. unfold swap, EndianIntBase_swap.
  destruct T as [s w].
  destruct w; cbn [width].
  - reflexivity.
  - apply (swap_through_unsigned (mkInt s W16) 2 x eq_refl Hr).
  - apply (swap_through_unsigned (mkInt s W32) 4 x eq_refl Hr).
  - apply (swap_through_unsigned (mkInt s W64) 8 x eq_refl Hr).
Qed.

(** C6: [Endian::swap] undone by itself, the identity on the 8-bit types;
    on a little-endian host [big] is [swap] and [little] the identity, on a
    big-endian host the roles are exchanged. *)
Theorem endian_swap_big_little (T : IntType) (x : Z) :
  in_range T x ->
  swap T (swap T x) = x /\
  (width T = W8 -> swap T x = x) /\
  big LITTLE T x = swap T x /\ little LITTLE T x = x /\
  big BIG T x = x /\ little BIG T x = swap T x.
Proof.
  intros Hr. split; [apply swap_involutive, Hr|].
  split; [|repeat split].
  intros Hw. unfold swap, EndianIntBase_swap. rewrite Hw. reflexivity.
Qed.

Lemma endian_swap_big_little_witness :
  in_range int16_t (-2) /\
  swap int16_t (-2) = -257 /\ swap int16_t (swap int16_t (-2)) = -2.
Proof.
  assert (Hr : in_range int16_t (-2)) by solve_range.
  split; [exact Hr|]. split; [reflexivity|].
  apply (endian_swap_big_little int16_t (-2) Hr).
Defined.

(** C10: on either host, [big] and [little] are involutions, and composed
    in either order they are a byte swap. *)
Theorem endian_big_little_involutions (order : Order) (T : IntType) (x : Z) :
  in_range T x ->
  big order T (big order T x) = x /\
  little order T (little order T x) = x /\
  little order T (big order T x) = swap T x /\
  big order T (little order T x) = swap T x.
Proof.
  intros Hr.
  pose proof (swap_involutive T x Hr) as Hsw. unfold swap in Hsw.
  destruct order; unfold big, little, swap, EndianInt_big, EndianInt_little;
    repeat split; try reflexivity; exact Hsw.
Qed.

Lemma endian_big_little_involutions_witness :
  in_range uint32_t 0x11223344 /\
  big LITTLE uint32_t (big LITTLE uint32_t 0x11223344) = 0x11223344 /\
  little BIG uint32_t (big BIG uint32_t 0x11223344) = 0x44332211.
Proof.
  assert (Hr : in_range uint32_t 0x11223344) by solve_range.
  split; [exact Hr|]. split.
  - apply (endian_big_little_involutions LITTLE uint32_t _ Hr).
  - destruct (endian_big_little_involutions BIG uint32_t _ Hr) as [_ [_ [H _]]].
    rewrite H. reflexivity.
Defined.

End EndianFacts.

(** ** BitRange: the iterator *)

Section BitIteratorFacts.

Variable T : IntType.

Lemma bitsPerBlock_bits : bitsPerBlock T = bits (width T).
Proof. reflexivity. Qed.

Lemma bitsPerBlock_bounds : 8 <= bitsPerBlock T <= 64.
Proof. rewrite bitsPerBlock_bits. apply bits_bounds. Qed.

Lemma ssize_id (x : Z) : - 2 ^ 63 <= x < 2 ^ 63 -> static_cast ssize_t x = x.
Proof.
  intros H. apply static_cast_id. unfold in_range, min_value, max_value.
  cbn. lia.
Qed.

Lemma size_id (x : Z) : 0 <= x < 2 ^ 64 -> static_cast size_t x = x.
Proof.
  intros H. apply static_cast_id. unfold in_range, min_value, max_value.
  cbn. lia.
Qed.

Lemma size_bounds (x : Z) : 0 <= static_cast size_t x < 2 ^ 64.
Proof.
  pose proof (static_cast_in_range size_t x) as H.
  change (0 <= static_cast size_t x <= 2 ^ 64 - 1) in H. lia.
Qed.

Lemma at_position_of (it : BitIterator) :
  offset_ok T it -> at_position T (position T it) = it.
Proof.
  unfold offset_ok, at_position, position. intros Hok.
  pose proof bitsPerBlock_bounds as Hb.
  destruct it as [b o]. cbn [base bitOffset_] in *.
  f_equal.
  - symmetry. apply (Z.div_unique _ _ _ o); [left; lia|lia].
  - symmetry. apply (Z.mod_unique _ _ b); [left; lia|lia].
Qed.

Lemma at_position_ok (p : Z) : offset_ok T (at_position T p).
Proof.
  unfold offset_ok, at_position. cbn [bitOffset_].
  pose proof bitsPerBlock_bounds. apply Z.mod_pos_bound. lia.
Qed.

Lemma position_at (p : Z) : position T (at_position T p) = p.
Proof.
  unfold position, at_position. cbn [base bitOffset_].
  pose proof bitsPerBlock_bounds.
  pose proof (Z.div_mod p (bitsPerBlock T) ltac:(lia)). lia.
Qed.

(** A step inside a block, and the steps that cross a block boundary. *)
Lemma increment_cases (it : BitIterator) :
  offset_ok T it ->
  increment T it
  = if bitOffset_ it + 1 =? bitsPerBlock T
    then mkBitIterator (base it + 1) 0
    else mkBitIterator (base it) (bitOffset_ it + 1).
Proof.
  unfold offset_ok. intros Hok. pose proof bitsPerBlock_bounds as Hb.
  unfold increment, advanceToNextBlock.
  rewrite (ssize_id (bitOffset_ it + 1)) by lia.
  rewrite (size_id (bitOffset_ it + 1)) by lia.
  destruct (bitOffset_ it + 1 =? bitsPerBlock T); reflexivity.
Qed.

Lemma decrement_cases (it : BitIterator) :
  offset_ok T it ->
  decrement T it
  = if bitOffset_ it =? 0
    then mkBitIterator (base it - 1) (bitsPerBlock T - 1)
    else mkBitIterator (base it) (bitOffset_ it - 1).
Proof.
  unfold offset_ok. intros Hok. pose proof bitsPerBlock_bounds as Hb.
  unfold decrement.
  rewrite (ssize_id (bitOffset_ it - 1)) by lia.
  rewrite (size_id (bitsPerBlock T - 1)) by lia.
  rewrite (ssize_id (bitsPerBlock T - 1)) by lia.
  reflexivity.
Qed.

Lemma increment_position (it : BitIterator) :
  offset_ok T it -> increment T it = at_position T (position T it + 1).
Proof.
  intros Hok. rewrite (increment_cases it Hok).
  unfold offset_ok in Hok. pose proof bitsPerBlock_bounds as Hb.
  unfold at_position, position.
  destruct (Z.eqb_spec (bitOffset_ it + 1) (bitsPerBlock T)) as [E|E]; f_equal.
  - apply (Z.div_unique _ _ _ 0); [left; lia|lia].
  - apply (Z.mod_unique _ _ (base it + 1)); [left; lia|lia].
  - apply (Z.div_unique _ _ _ (bitOffset_ it + 1)); [left; lia|lia].
  - apply (Z.mod_unique _ _ (base it)); [left; lia|lia].
Qed.

Lemma decrement_position (it : BitIterator) :
  offset_ok T it -> decrement T it = at_position T (position T it - 1).
Proof.
  intros Hok. rewrite (decrement_cases it Hok).
  unfold offset_ok in Hok. pose proof bitsPerBlock_bounds as Hb.
  unfold at_position, position.
  destruct (Z.eqb_spec (bitOffset_ it) 0) as [E|E]; f_equal.
  - apply (Z.div_unique _ _ _ (bitsPerBlock T - 1)); [left; lia|lia].
  - apply (Z.mod_unique _ _ (base it - 1)); [left; lia|lia].
  - apply (Z.div_unique _ _ _ (bitOffset_ it - 1)); [left; lia|lia].
  - apply (Z.mod_unique _ _ (base it)); [left; lia|lia].
Qed.

(** What [advance] computes: [n] enters the division and the remainder as a
    [size_t]. *)
Lemma advance_position (it : BitIterator) (n : Z) :
  offset_ok T it ->
  advance T it n = at_position T (position T it + static_cast size_t n).
Proof.
  intros Hok. unfold offset_ok in Hok. pose proof bitsPerBlock_bounds as Hb.
  pose proof (size_bounds n) as Hu.
  unfold advance. set (u := static_cast size_t n) in *.
  set (bpb := bitsPerBlock T) in *.
  pose proof (Z.div_mod u bpb ltac:(lia)) as Hdm.
  pose proof (Z.mod_pos_bound u bpb ltac:(lia)) as Hr.
  assert (Hq : 0 <= u / bpb < 2 ^ 61).
  { split; [apply Z.div_pos; lia|apply Z.div_lt_upper_bound; lia]. }
  rewrite (size_id (bitOffset_ it)) by lia.
  rewrite (size_id (bitOffset_ it + u mod bpb)) by lia.
  rewrite (ssize_id (bitOffset_ it + u mod bpb)) by lia.
  rewrite (size_id (bitOffset_ it + u mod bpb)) by lia.
  rewrite (ssize_id (u / bpb)) by lia.
  unfold at_position, position. fold bpb.
  destruct (Z.leb_spec bpb (bitOffset_ it + u mod bpb)) as [Hge|Hlt].
  - rewrite (size_id (bitOffset_ it + u mod bpb - bpb)) by lia.
    rewrite (ssize_id (bitOffset_ it + u mod bpb - bpb)) by lia.
    rewrite (ssize_id (u / bpb + 1)) by lia.
    f_equal.
    + apply (Z.div_unique _ _ _ (bitOffset_ it + u mod bpb - bpb)); [left; lia|lia].
    + apply (Z.mod_unique _ _ (base it + (u / bpb + 1))); [left; lia|lia].
  - f_equal.
    + apply (Z.div_unique _ _ _ (bitOffset_ it + u mod bpb)); [left; lia|lia].
    + apply (Z.mod_unique _ _ (base it + u / bpb)); [left; lia|lia].
Qed.

Lemma increments_position (n : nat) : forall it,
  offset_ok T it ->
  increments T n it = at_position T (position T it + Z.of_nat n).
Proof.
  induction n as [|n IH]; intros it Hok.
  - cbn [increments]. rewrite Z.add_0_r. symmetry. apply at_position_of, Hok.
  - cbn [increments]. rewrite (increment_position it Hok).
    rewrite IH by apply at_position_ok.
    rewrite position_at. f_equal. lia.
Qed.

Lemma decrements_position (n : nat) : forall it,
  offset_ok T it ->
  decrements T n it = at_position T (position T it - Z.of_nat n).
Proof.
  induction n as [|n IH]; intros it Hok.
  - cbn [decrements]. rewrite Z.sub_0_r. symmetry. apply at_position_of, Hok.
  - cbn [decrements]. rewrite (decrement_position it Hok).
    rewrite IH by apply at_position_ok.
    rewrite position_at. f_equal. lia.
Qed.

Example advance_example :
  advance uint8_t (mkBitIterator 1 5) 13 = mkBitIterator 3 2 /\
  increments uint8_t 13 (mkBitIterator 1 5) = mkBitIterator 3 2.
Proof. split; reflexivity. Qed.

(** For an offset that is not negative, [advance] is that many single
    increments. *)
Lemma advance_forwards (it : BitIterator) (n : Z) :
  offset_ok T it -> 0 <= n -> in_range ssize_t n ->
  advance T it n = increments T (Z.to_nat n) it.
Proof.
  intros Hok Hn Hr.
  unfold in_range, min_value, max_value in Hr. cbn in Hr.
  rewrite (advance_position it n Hok), (increments_position _ it Hok).
  rewrite size_id by lia. rewrite Z2Nat.id by lia. reflexivity.
Qed.

(** For a negative offset the bit offset of [advance] is the one of the
    single decrements, and the base iterator is [2^64 / bitsPerBlock]
    blocks further on. *)
Lemma advance_backwards (it : BitIterator) (n : Z) :
  offset_ok T it -> n < 0 -> in_range ssize_t n ->
  let d := decrements T (Z.to_nat (- n)) it in
  advance T it n
  = mkBitIterator (base d + 2 ^ 64 / bitsPerBlock T) (bitOffset_ d).
Proof.
  intros Hok Hn Hr d.
  unfold in_range, min_value, max_value in Hr. cbn in Hr.
  pose proof bitsPerBlock_bounds as Hb.
  assert (Hu : static_cast size_t n = n + 2 ^ 64).
  { unfold static_cast. cbn [is_signed size_t uint64_t width bits].
    symmetry. apply (Z.mod_unique _ _ (-1)); [left; lia|lia]. }
  assert (Hdiv : 2 ^ 64 = 2 ^ 64 / bitsPerBlock T * bitsPerBlock T).
  { rewrite bitsPerBlock_bits. destruct (width T); reflexivity. }
  subst d. rewrite (advance_position it n Hok), (decrements_position _ it Hok).
  rewrite Hu, Z2Nat.id by lia.
  unfold at_position. cbn [base bitOffset_].
  replace (position T it + (n + 2 ^ 64)) with (position T it - - n + 2 ^ 64) by lia.
  rewrite Hdiv at 1 2.
  rewrite Z.div_add, Z.mod_add by lia. reflexivity.
Qed.

End BitIteratorFacts.

Section BitIteratorInvariant.

Variable T : IntType.

(** C7: construction at a valid offset, [increment], [decrement],
    [advance] and [advanceToNextBlock] keep [0 <= bitOffset < bitsPerBlock];
    [increment] at the last bit of a block moves to offset 0 of the next
    block, [decrement] at offset 0 to the last bit of the block before. *)
Theorem bitOffset_invariant (it : BitIterator) :
  offset_ok T it ->
  offset_ok T (increment T it) /\
  offset_ok T (decrement T it) /\
  (forall n, in_range ssize_t n -> offset_ok T (advance T it n)) /\
  offset_ok T (advanceToNextBlock it) /\
  (forall iter off, 0 <= off < bitsPerBlock T ->
     BitIterator_new T iter off = Ok (mkBitIterator iter off) /\
     offset_ok T (mkBitIterator iter off)) /\
  (bitOffset_ it = bitsPerBlock T - 1 ->
     increment T it = mkBitIterator (base it + 1) 0) /\
  (bitOffset_ it = 0 ->
     decrement T it = mkBitIterator (base it - 1) (bitsPerBlock T - 1)).
Proof.
  intros Hok. pose proof (bitsPerBlock_bounds T) as Hb.
  split; [rewrite (increment_position T it Hok); apply at_position_ok|].
  split; [rewrite (decrement_position T it Hok); apply at_position_ok|].
  split; [intros n _; rewrite (advance_position T it n Hok); apply at_position_ok|].
  split; [unfold offset_ok, advanceToNextBlock; cbn [bitOffset_]; lia|].
  split.
  { intros iter off Hoff. split; [|exact Hoff].
    unfold BitIterator_new. cbn [bitOffset_].
    rewrite (ssize_id off), (size_id off) by lia.
    destruct (Z.ltb_spec off (bitsPerBlock T)) as [_|]; [reflexivity|lia]. }
  split.
  - intros E. rewrite (increment_cases T it Hok), E.
    replace (bitsPerBlock T - 1 + 1) with (bitsPerBlock T) by lia.
    rewrite Z.eqb_refl. reflexivity.
  - intros E. rewrite (decrement_cases T it Hok), E. reflexivity.
Qed.

End BitIteratorInvariant.

Lemma bitOffset_invariant_witness :
  offset_ok uint8_t (mkBitIterator 3 7) /\
  increment uint8_t (mkBitIterator 3 7) = mkBitIterator 4 0 /\
  offset_ok uint8_t (advance uint8_t (mkBitIterator 3 7) (-13)).
Proof.
  assert (Hok : offset_ok uint8_t (mkBitIterator 3 7))
    by (unfold offset_ok; cbn; lia).
  destruct (bitOffset_invariant uint8_t _ Hok) as [_ [_ [Ha [_ [_ [Hi _]]]]]].
  split; [exact Hok|]. split.
  - apply Hi. reflexivity.
  - apply Ha. solve_range.
Defined.

(** C5 fails on the code for every negative offset.  At the iterator on
    bit 0 of block 1 of a sequence of 64-bit blocks, [advance(-1)] leaves
    the base iterator on block [2^58], where one decrement leaves it on
    block 0: [n / bpb] and [n % bpb] are computed in [size_t]. *)
Theorem advance_negative_diverges :
  offset_ok uint64_t (mkBitIterator 1 0) /\
  in_range ssize_t (-1) /\
  advance uint64_t (mkBitIterator 1 0) (-1) = mkBitIterator (2 ^ 58) 63 /\
  decrements uint64_t 1 (mkBitIterator 1 0) = mkBitIterator 0 63.
Proof.
  split; [unfold offset_ok; cbn; lia|].
  split; [solve_range|].
  split; reflexivity.
Qed.

(** ** BitRange: the scan for the first set bit *)

Section RangeScan.

Variable T : IntType.
Variable ws : WideShift.
Hypothesis T_unsigned : is_signed T = false.

Let w := bits (width T).

Lemma block_range (v : Z) : in_range T v <-> 0 <= v < 2 ^ w.
Proof.
  unfold in_range, min_value, max_value. rewrite T_unsigned. fold w. lia.
Qed.

Lemma promote_width : w <= bits (width (promote T)).
Proof.
  unfold w, promote. destruct (width T) eqn:E; rewrite ?E; cbn; lia.
Qed.

(** [(one << off) - 1] in the promoted type is the mask of the [off] low
    bits. *)
Lemma low_mask (off : Z) :
  0 <= off < w ->
  static_cast (promote T) (shl ws (promote T) (one T) off - 1) = Z.ones off.
Proof.
  intros Hoff. pose proof promote_width as Hp.
  pose proof (bits_bounds (width T)) as Hb. fold w in Hb.
  assert (Hone : one T = 1).
  { unfold one. apply static_cast_id. apply block_range.
    assert (2 ^ 3 <= 2 ^ w) by (apply Z.pow_le_mono_r; lia). lia. }
  rewrite Hone. unfold shl.
  destruct (Z.ltb_spec off (bits (width (promote T)))) as [_|]; [|lia].
  rewrite Z.shiftl_1_l, Z.ones_equiv.
  assert (Hpos : 0 < 2 ^ off) by (apply Z.pow_pos_nonneg; lia).
  assert (Hin : in_range (promote T) (2 ^ off)).
  { unfold in_range, min_value, max_value, promote.
    destruct T as [s wd]. cbn in T_unsigned. subst s. unfold w in *.
    cbn [width] in *.
    destruct wd; cbn [is_signed width bits int_t int32_t] in *.
    - assert (2 ^ off <= 2 ^ 7) by (apply Z.pow_le_mono_r; lia). lia.
    - assert (2 ^ off <= 2 ^ 15) by (apply Z.pow_le_mono_r; lia). lia.
    - assert (2 ^ off <= 2 ^ 31) by (apply Z.pow_le_mono_r; lia). lia.
    - assert (2 ^ off <= 2 ^ 63) by (apply Z.pow_le_mono_r; lia). lia. }
  rewrite (static_cast_id _ _ Hin).
  apply static_cast_id.
  unfold in_range, min_value, max_value in *.
  destruct (is_signed (promote T)); lia.
Qed.

Lemma mask_from_spec (v off : Z) :
  in_range T v -> 0 <= off < w ->
  in_range T (mask_from T ws v off) /\
  forall j, 0 <= j ->
    Z.testbit (mask_from T ws v off) j = Z.testbit v j && (off <=? j).
Proof.
  intros Hv Hoff. split; [apply static_cast_in_range|].
  intros j Hj. pose proof promote_width as Hp.
  pose proof (bits_bounds (width T)) as Hb. fold w in Hb.
  apply block_range in Hv.
  unfold mask_from. rewrite (static_cast_unsigned T _ T_unsigned). fold w.
  destruct (Z.lt_ge_cases j w) as [Hlt|Hge].
  - rewrite Z.mod_pow2_bits_low, Z.land_spec by lia. f_equal.
    rewrite static_cast_testbit by lia.
    rewrite Z.lnot_spec, low_mask by lia.
    destruct (Z.leb_spec off j).
    + rewrite Z.ones_spec_high by lia. reflexivity.
    + rewrite Z.ones_spec_low by lia. reflexivity.
  - rewrite Z.mod_pow2_bits_high by lia.
    rewrite (bits_above_pow2 v w j) by lia. reflexivity.
Qed.

Lemma mask_below_spec (v off : Z) :
  in_range T v -> 0 <= off < w ->
  in_range T (mask_below T ws v off) /\
  forall j, 0 <= j ->
    Z.testbit (mask_below T ws v off) j = Z.testbit v j && (j <? off).
Proof.
  intros Hv Hoff. split; [apply static_cast_in_range|].
  intros j Hj. pose proof promote_width as Hp.
  pose proof (bits_bounds (width T)) as Hb. fold w in Hb.
  apply block_range in Hv.
  unfold mask_below. rewrite (static_cast_unsigned T _ T_unsigned). fold w.
  destruct (Z.lt_ge_cases j w) as [Hlt|Hge].
  - rewrite Z.mod_pow2_bits_low, Z.land_spec by lia. f_equal.
    rewrite low_mask by lia.
    destruct (Z.ltb_spec j off).
    + rewrite Z.ones_spec_low by lia. reflexivity.
    + rewrite Z.ones_spec_high by lia. reflexivity.
  - rewrite Z.mod_pow2_bits_high by lia.
    rewrite (bits_above_pow2 v w j) by lia. reflexivity.
Qed.

(** The tail shared by both scans, on a block [m] whose bits below the
    offset of [begin] are clear. *)
Lemma found_spec (begin : BitIterator) (m : Z) :
  in_range T m -> offset_ok T begin ->
  (forall j, 0 <= j < bitOffset_ begin -> Z.testbit m j = false) ->
  (found T begin m = Ok None /\
   forall j, 0 <= j -> Z.testbit m j = false)
  \/
  (exists k,
     bitOffset_ begin <= k < w /\
     found T begin m = Ok (Some (mkBitIterator (base begin) k)) /\
     Z.testbit m k = true /\
     forall j, 0 <= j < k -> Z.testbit m j = false).
Proof.
  intros Hm Hok Hlow.
  pose proof (bits_bounds (width T)) as Hb. fold w in Hb.
  unfold offset_ok in Hok. change (bitsPerBlock T) with w in Hok.
  destruct (findFirstSet_scalar_spec T m Hm) as [H0 [H1 _]].
  unfold found, bitOffset.
  destruct (Z.eq_dec m 0) as [E|E].
  - left. rewrite (H0 E). split; [reflexivity|].
    intros j _. rewrite E. apply Z.bits_0.
  - right. destruct (H1 E) as [Hr [Ht Hc]]. fold w in Hr.
    set (r := findFirstSet T m) in *.
    exists (r - 1).
    assert (Hge : bitOffset_ begin <= r - 1).
    { destruct (Z.lt_ge_cases (r - 1) (bitOffset_ begin)) as [Hlt|]; [|lia].
      rewrite Hlow in Ht by lia. discriminate. }
    split; [lia|]. split; [|split; [exact Ht|exact Hc]].
    rewrite (size_id r) by lia.
    destruct (Z.eqb_spec r 0) as [|_]; [lia|].
    rewrite (size_id (r - 1)) by lia.
    rewrite (size_id (bitOffset_ begin)) by lia.
    destruct (Z.leb_spec (bitOffset_ begin) (r - 1)) as [_|]; [|lia].
    cbn [assert bind].
    unfold advanceInBlock.
    rewrite (size_id (r - 1 - bitOffset_ begin)) by lia.
    rewrite (size_id (bitOffset_ begin)) by lia.
    replace (bitOffset_ begin + (r - 1 - bitOffset_ begin)) with (r - 1) by lia.
    rewrite (size_id (r - 1)), (ssize_id (r - 1)), (size_id (r - 1)) by lia.
    change (bitsPerBlock T) with w.
    destruct (Z.ltb_spec (r - 1) w) as [_|]; [|lia].
    reflexivity.
Qed.

End RangeScan.

Section RangeScanLoop.

Variable T : IntType.
Variable ws : WideShift.
Hypothesis T_unsigned : is_signed T = false.
Variable blocks : list Z.
Hypothesis blocks_in_range : Forall (in_range T) blocks.

Let bpb := bitsPerBlock T.

Lemma bit_at_block (b j v : Z) :
  0 <= b -> nth_error blocks (Z.to_nat b) = Some v -> 0 <= j < bpb ->
  bit_at T blocks (b * bpb + j) = Z.testbit v j.
Proof.
  intros Hb Hv Hj. unfold bit_at. fold bpb.
  replace ((b * bpb + j) / bpb) with b
    by (apply (Z.div_unique _ _ _ j); [left; lia|lia]).
  replace ((b * bpb + j) mod bpb) with j
    by (apply (Z.mod_unique _ _ b); [left; lia|lia]).
  rewrite Hv. reflexivity.
Qed.

Lemma deref_block (b : Z) :
  0 <= b < Z.of_nat (length blocks) ->
  exists v, deref blocks b = Ok v /\
            nth_error blocks (Z.to_nat b) = Some v /\ in_range T v.
Proof.
  intros Hb. unfold deref.
  destruct (Z.ltb_spec b 0) as [|_]; [lia|].
  destruct (nth_error blocks (Z.to_nat b)) as [v|] eqn:E.
  - exists v. split; [reflexivity|]. split; [reflexivity|].
    rewrite Forall_forall in blocks_in_range.
    apply blocks_in_range. eapply nth_error_In. exact E.
  - apply nth_error_None in E. lia.
Qed.

Lemma findFirstSet_loop_spec (end_ : BitIterator) (n : nat) :
  base end_ <= Z.of_nat (length blocks) ->
  forall begin,
    offset_ok T begin -> 0 <= base begin ->
    base begin + Z.of_nat n = base end_ ->
    exists out,
      (forall fuel, (n < fuel)%nat ->
         findFirstSet_loop T ws fuel blocks begin end_ = Ok out) /\
      loop_post T blocks begin end_ n out.
Proof.
  intros Hend. pose proof (bitsPerBlock_bounds T) as Hb. fold bpb in Hb.
  induction n as [|n IH]; intros begin Hok Hbase Hn.
  - exists (Exited begin). split.
    + intros [|fuel] Hf; [lia|]. cbn [findFirstSet_loop].
      destruct (Z.eqb_spec (base begin) (base end_)) as [_|]; [reflexivity|lia].
    + cbn. repeat split; try lia; try apply Hok.
      intros p Hp. lia.
  - destruct (deref_block (base begin) ltac:(lia)) as [v [Hd [Hnth Hv]]].
    assert (Hlo : 0 <= bitOffset_ begin < bits (width T)) by apply Hok.
    assert (Hoff : bitOffset begin = bitOffset_ begin).
    { unfold bitOffset. apply size_id. pose proof (bits_bounds (width T)). lia. }
    destruct (mask_from_spec T ws T_unsigned v (bitOffset_ begin) Hv Hlo)
      as [Hm Hmb].
    assert (Hlow : forall j, 0 <= j < bitOffset_ begin ->
                     Z.testbit (mask_from T ws v (bitOffset_ begin)) j = false).
    { intros j Hj. rewrite Hmb by lia.
      destruct (Z.leb_spec (bitOffset_ begin) j); [lia|apply andb_false_r]. }
    assert (Hstep : forall fuel,
              findFirstSet_loop T ws (S fuel) blocks begin end_
              = (r <- found T begin (mask_from T ws v (bitOffset_ begin)) ;;
                 match r with
                 | Some it => Ok (Returned it)
                 | None => findFirstSet_loop T ws fuel blocks
                             (advanceToNextBlock begin) end_
                 end)).
    { intros fuel. cbn [findFirstSet_loop].
      destruct (Z.eqb_spec (base begin) (base end_)) as [|_]; [lia|].
      rewrite Hd, Hoff. reflexivity. }
    destruct (found_spec T begin _ Hm Hok Hlow)
      as [[Hf Hclr]|[k [Hk [Hf [Hbit Hclr]]]]].
    + (* nothing in this block: on to the next *)
      assert (Hok' : offset_ok T (advanceToNextBlock begin)).
      { unfold offset_ok, advanceToNextBlock. cbn [bitOffset_]. fold bpb. lia. }
      destruct (IH (advanceToNextBlock begin) Hok'
                  ltac:(cbn [advanceToNextBlock base]; lia)
                  ltac:(cbn [advanceToNextBlock base]; lia))
        as [out [Hrun Hpost]].
      assert (Hpos' : position T (advanceToNextBlock begin)
                      = (base begin + 1) * bpb) by (unfold position; cbn; fold bpb; lia).
      assert (Hblock : clear_between T blocks (position T begin)
                         (position T (advanceToNextBlock begin))).
      { intros p Hp. rewrite Hpos' in Hp. unfold position in Hp. fold bpb in Hp.
        replace p with (base begin * bpb + (p - base begin * bpb)) by lia.
        rewrite (bit_at_block _ _ v Hbase Hnth) by (fold bpb in Hlo; lia).
        specialize (Hclr (p - base begin * bpb) ltac:(lia)).
        rewrite Hmb in Hclr by lia.
        destruct (Z.leb_spec (bitOffset_ begin) (p - base begin * bpb)); [|lia].
        rewrite andb_true_r in Hclr. exact Hclr. }
      assert (Hle : position T begin <= position T (advanceToNextBlock begin)).
      { rewrite Hpos'. unfold position. fold bpb. change (bits (width T)) with bpb in Hlo. lia. }
      exists out. split.
      * intros [|fuel] Hfuel; [lia|].
        rewrite (Hstep fuel), Hf. cbn [bind]. apply Hrun. lia.
      * destruct out as [r|b]; cbn [loop_post] in *.
        -- destruct Hpost as [Hr [Hpr [Hbr Hcr]]].
           split; [exact Hr|]. split; [lia|]. split; [exact Hbr|].
           intros p Hp.
           destruct (Z.lt_ge_cases p (position T (advanceToNextBlock begin)));
             [apply Hblock|apply Hcr]; lia.
        -- destruct Hpost as [Hb1 [Hb2 [Hb3 [Hb4 [Hb5 Hb6]]]]].
           split; [exact Hb1|]. split; [exact Hb2|]. split; [lia|].
           split.
           ++ intros _. destruct n as [|n'].
              ** rewrite (Hb3 eq_refl). reflexivity.
              ** apply Hb4. lia.
           ++ split; [lia|].
              intros p Hp.
              destruct (Z.lt_ge_cases p (position T (advanceToNextBlock begin)));
                [apply Hblock|apply Hb6]; lia.
    + (* the first set bit is in this block *)
      change (bits (width T)) with bpb in Hlo.
      assert (Hkw : bitOffset_ begin <= k < bpb) by exact Hk.
      exists (Returned (mkBitIterator (base begin) k)). split.
      * intros [|fuel] Hfuel; [lia|].
        rewrite (Hstep fuel), Hf.
        reflexivity.
      * cbn [loop_post]. unfold position, offset_ok. cbn [base bitOffset_].
        fold bpb. split; [lia|]. split; [nia|]. split.
        -- rewrite (bit_at_block _ _ v Hbase Hnth) by lia.
           rewrite Hmb in Hbit by lia.
           apply andb_true_iff in Hbit. apply Hbit.
        -- intros p Hp.
           replace p with (base begin * bpb + (p - base begin * bpb)) by lia.
           rewrite (bit_at_block _ _ v Hbase Hnth) by lia.
           specialize (Hclr (p - base begin * bpb) ltac:(lia)).
           rewrite Hmb in Hclr by lia.
           destruct (Z.leb_spec (bitOffset_ begin) (p - base begin * bpb)); [|lia].
           rewrite andb_true_r in Hclr. exact Hclr.
Qed.

End RangeScanLoop.

Section RangeScanResult.

Variable T : IntType.
Variable ws : WideShift.
Hypothesis T_unsigned : is_signed T = false.
Variable blocks : list Z.
Hypothesis blocks_in_range : Forall (in_range T) blocks.

Lemma findFirstSet_range_spec (begin end_ : BitIterator) :
  valid_range T blocks begin end_ ->
  exists r,
    (forall fuel, (Z.to_nat (base end_ - base begin) < fuel)%nat ->
       findFirstSet_range T ws fuel blocks begin end_ = Ok r) /\
    (first_set_in T blocks begin end_ r \/
     (r = end_ /\
      clear_between T blocks (position T begin) (position T end_))).
Proof.
  intros [Hokb [Hoke [Hbase [Hord [Hlen Hlast]]]]].
  pose proof (bitsPerBlock_bounds T) as Hb.
  assert (Hob : 0 <= bitOffset_ begin < bitsPerBlock T) by exact Hokb.
  assert (Hoe : 0 <= bitOffset_ end_ < bitsPerBlock T) by exact Hoke.
  assert (Hbe : base begin <= base end_).
  { unfold position in Hord. nia. }
  set (n := Z.to_nat (base end_ - base begin)).
  destruct (findFirstSet_loop_spec T ws T_unsigned blocks blocks_in_range
              end_ n Hlen begin Hokb Hbase ltac:(unfold n; lia))
    as [out [Hrun Hpost]].
  destruct out as [r|b]; cbn [loop_post] in Hpost.
  - (* found in a whole block *)
    destruct Hpost as [Hr [Hpr [Hbr Hcr]]].
    exists r. split.
    + intros fuel Hfuel. unfold findFirstSet_range.
      rewrite (Hrun fuel Hfuel). reflexivity.
    + left. unfold first_set_in. split; [exact Hr|]. split; [|split; assumption].
      unfold position in *. lia.
  - destruct Hpost as [Hb1 [Hb2 [Hb3 [Hb4 [Hb5 Hb6]]]]].
    assert (Hob' : 0 <= bitOffset_ b < bitsPerBlock T) by exact Hb2.
    assert (Hlo : bitOffset_ b <= bitOffset_ end_).
    { destruct n as [|n'] eqn:En.
      - rewrite (Hb3 eq_refl). unfold position in Hord.
        assert (base begin = base end_) by lia. nia.
      - rewrite Hb4 by lia. lia. }
    assert (Hoffb : bitOffset b = bitOffset_ b)
      by (unfold bitOffset; apply size_id; lia).
    assert (Hoffe : bitOffset end_ = bitOffset_ end_)
      by (unfold bitOffset; apply size_id; lia).
    assert (Hposb : position T b = base end_ * bitsPerBlock T + bitOffset_ b)
      by (unfold position; rewrite Hb1; reflexivity).
    assert (Hpose : position T end_ = base end_ * bitsPerBlock T + bitOffset_ end_)
      by reflexivity.
    destruct (Z.eq_dec (bitOffset_ end_) 0) as [E0|Ene].
    + (* end is at the start of its block: nothing left to scan *)
      exists end_. split.
      * intros fuel Hfuel. unfold findFirstSet_range.
        rewrite (Hrun fuel Hfuel). cbn [bind].
        rewrite Hoffe, E0. reflexivity.
      * right. split; [reflexivity|].
        intros p Hp. apply Hb6. lia.
    + (* the partial block of end *)
      specialize (Hlast Ene).
      destruct (deref_block T blocks blocks_in_range (base b) ltac:(lia))
        as [v [Hd [Hnth Hv]]].
      destruct (mask_from_spec T ws T_unsigned v (bitOffset_ b) Hv Hob')
        as [Hm1 Hmb1].
      destruct (mask_below_spec T ws T_unsigned _ (bitOffset_ end_) Hm1 Hoe)
        as [Hm2 Hmb2].
      set (m := mask_below T ws (mask_from T ws v (bitOffset_ b)) (bitOffset_ end_)) in *.
      assert (Hbits : forall j, 0 <= j ->
                Z.testbit m j
                = Z.testbit v j && (bitOffset_ b <=? j) && (j <? bitOffset_ end_)).
      { intros j Hj. rewrite Hmb2, Hmb1 by lia. reflexivity. }
      assert (Hlow : forall j, 0 <= j < bitOffset_ b -> Z.testbit m j = false).
      { intros j Hj. rewrite Hbits by lia.
        destruct (Z.leb_spec (bitOffset_ b) j); [lia|].
        rewrite andb_false_r. reflexivity. }
      assert (Hstep : forall fuel, (n < fuel)%nat ->
                findFirstSet_range T ws fuel blocks begin end_
                = (r <- found T b m ;;
                   match r with Some it => Ok it | None => Ok end_ end)).
      { intros fuel Hfuel. unfold findFirstSet_range.
        rewrite (Hrun fuel Hfuel). cbn [bind].
        rewrite Hoffe, Hoffb.
        destruct (Z.eqb_spec (bitOffset_ end_) 0) as [|_]; [contradiction|].
        cbn [negb]. rewrite Hd. reflexivity. }
      assert (Hvbit : forall j, bitOffset_ b <= j < bitOffset_ end_ ->
                Z.testbit m j = Z.testbit v j).
      { intros j Hj. rewrite Hbits by lia.
        destruct (Z.leb_spec (bitOffset_ b) j); [|lia].
        destruct (Z.ltb_spec j (bitOffset_ end_)); [|lia].
        rewrite !andb_true_r. reflexivity. }
      assert (Hbase_b : 0 <= base b) by lia.
      destruct (found_spec T b m Hm2 Hb2 Hlow)
        as [[Hf Hclr]|[k [Hk [Hf [Hbit Hclr]]]]].
      * exists end_. split.
        -- intros fuel Hfuel. rewrite (Hstep fuel Hfuel), Hf. reflexivity.
        -- right. split; [reflexivity|].
           intros p Hp.
           destruct (Z.lt_ge_cases p (position T b)) as [Hlt|Hge];
             [apply Hb6; lia|].
           replace p with (base b * bitsPerBlock T + (p - base b * bitsPerBlock T)) by lia.
           rewrite (bit_at_block T blocks _ _ v Hbase_b Hnth)
             by (rewrite Hb1; lia).
           rewrite <- Hvbit by (rewrite Hb1; lia).
           apply Hclr. rewrite Hb1. lia.
      * assert (Hkhi : k < bitOffset_ end_).
        { rewrite Hbits in Hbit by lia.
          destruct (Z.ltb_spec k (bitOffset_ end_)); [assumption|].
          rewrite andb_false_r in Hbit. discriminate. }
        exists (mkBitIterator (base b) k). split.
        -- intros fuel Hfuel. rewrite (Hstep fuel Hfuel), Hf. reflexivity.
        -- left. unfold first_set_in, offset_ok, position.
           cbn [base bitOffset_]. rewrite Hb1.
           split; [lia|]. split; [unfold position in *; lia|].
           split.
           ++ rewrite <- Hb1.
              rewrite (bit_at_block T blocks _ _ v Hbase_b Hnth) by lia.
              rewrite <- Hvbit by lia. exact Hbit.
           ++ intros p Hp.
              destruct (Z.lt_ge_cases p (position T b)) as [Hlt|Hge];
                [apply Hb6; unfold position in *; lia|].
              replace p with (base b * bitsPerBlock T + (p - base b * bitsPerBlock T)) by lia.
              rewrite (bit_at_block T blocks _ _ v Hbase_b Hnth)
                by (rewrite Hb1; unfold position in *; lia).
              rewrite <- Hvbit by (rewrite Hb1; unfold position in *; lia).
              apply Hclr. rewrite Hb1. unfold position in *. lia.
Qed.

End RangeScanResult.

(** C3: on a valid ordered bit range over unsigned blocks, the ranged
    [findFirstSet] returns, given fuel for its loop, the iterator on the
    first set bit of the range, and [end] when no bit of the range is set
    (the empty range included). *)
Theorem findFirstSet_range_first_set_bit
  (T : IntType) (ws : WideShift) (blocks : list Z) (begin end_ : BitIterator) :
  is_signed T = false ->
  Forall (in_range T) blocks ->
  valid_range T blocks begin end_ ->
  exists r,
    (forall fuel, (Z.to_nat (base end_ - base begin) < fuel)%nat ->
       findFirstSet_range T ws fuel blocks begin end_ = Ok r) /\
    ((exists p, position T begin <= p < position T end_ /\
                bit_at T blocks p = true) ->
     first_set_in T blocks begin end_ r) /\
    (clear_between T blocks (position T begin) (position T end_) -> r = end_).
Proof.
  intros Hs Hblocks Hvalid.
  destruct (findFirstSet_range_spec T ws Hs blocks Hblocks begin end_ Hvalid)
    as [r [Hrun Hr]].
  exists r. split; [exact Hrun|]. split.
  - intros [p [Hp Hbit]]. destruct Hr as [Hfirst|[_ Hclear]]; [exact Hfirst|].
    rewrite (Hclear p Hp) in Hbit. discriminate.
  - intros Hclear. destruct Hr as [[_ [Hpos [Hbit _]]]|[E _]]; [|exact E].
    rewrite (Hclear _ Hpos) in Hbit. discriminate.
Qed.

Lemma findFirstSet_range_first_set_bit_witness :
  is_signed uint8_t = false /\
  Forall (in_range uint8_t) [0; 0; 16; 255] /\
  valid_range uint8_t [0; 0; 16; 255] (mkBitIterator 0 3) (mkBitIterator 3 0) /\
  first_set_in uint8_t [0; 0; 16; 255] (mkBitIterator 0 3) (mkBitIterator 3 0)
    (mkBitIterator 2 4).
Proof.
  assert (Hb : Forall (in_range uint8_t) [0; 0; 16; 255]).
  { repeat constructor; solve_range. }
  assert (Hv : valid_range uint8_t [0; 0; 16; 255]
                 (mkBitIterator 0 3) (mkBitIterator 3 0)).
  { unfold valid_range, offset_ok, position. cbn. repeat split; lia. }
  split; [reflexivity|]. split; [exact Hb|]. split; [exact Hv|].
  destruct (findFirstSet_range_first_set_bit uint8_t MasksCount _ _ _
              eq_refl Hb Hv) as [r [Hrun [Hfirst _]]].
  specialize (Hrun 4%nat ltac:(cbn; lia)).
  assert (E : r = mkBitIterator 2 4).
  { vm_compute in Hrun. injection Hrun as <-. reflexivity. }
  rewrite <- E. apply Hfirst.
  exists 20. split; [unfold position; cbn; lia|reflexivity].
Defined.

(** * Further properties of the code *)

(** ** BitScan *)

Section BitScanMore.

(** [findLastSet] on the bit pattern of a nonzero value of any type. *)
Lemma findLastSet_pattern (T : IntType) (x : Z) :
  in_range T x -> x <> 0 ->
  0 < x mod 2 ^ bits (width T) /\
  findLastSet T x = 1 + Z.log2 (x mod 2 ^ bits (width T)).
Proof.
  intros Hr Hx.
  pose proof (bits_bounds (width T)) as Hb.
  assert (Hm : 0 <= x mod 2 ^ bits (width T) < 2 ^ bits (width T))
    by (apply Z.mod_pos_bound, Z.pow_pos_nonneg; lia).
  assert (Hz : x mod 2 ^ bits (width T) <> 0).
  { intros E. destruct (in_range_nonzero_bit T x Hr Hx) as [j [Hj Hbit]].
    rewrite <- (Z.mod_pow2_bits_low x (bits (width T)) j), E, Z.bits_0 in Hbit by lia.
    discriminate. }
  split; [lia|].
  assert (E : findLastSet T x
              = findLastSet_unsigned (make_unsigned T)
                  (static_cast (make_unsigned T) x)).
  { unfold findLastSet. destruct (is_signed T) eqn:Hs; [reflexivity|].
    rewrite (static_cast_id (make_unsigned T) x).
    - destruct T as [s w]. cbn in Hs. subst s. reflexivity.
    - unfold in_range, min_value, max_value in *. rewrite Hs in Hr. exact Hr. }
  rewrite E, findLastSet_unsigned_spec;
    [|reflexivity|apply static_cast_in_range].
  rewrite (static_cast_unsigned (make_unsigned T) x eq_refl).
  change (bits (width (make_unsigned T))) with (bits (width T)).
  destruct (Z.eqb_spec (x mod 2 ^ bits (width T)) 0); [contradiction|reflexivity].
Qed.

(** X1: the first set bit of a nonzero value is not above its last set bit,
    and for an unsigned value the two coincide exactly on the powers of
    two. *)
Theorem findFirstSet_le_findLastSet (T : IntType) (x : Z) :
  in_range T x -> x <> 0 ->
  findFirstSet T x <= findLastSet T x /\
  (is_signed T = false ->
   (findFirstSet T x = findLastSet T x <-> exists k, 0 <= k /\ x = 2 ^ k)).
Proof.
  intros Hr Hx.
  pose proof (bits_bounds (width T)) as Hb.
  destruct (findFirstSet_scalar_spec T x Hr) as [_ [H1 _]].
  destruct (H1 Hx) as [Hrange [Hbit Hclear]].
  destruct (findLastSet_pattern T x Hr Hx) as [Hpos Hfls].
  set (r := findFirstSet T x) in *.
  assert (Hle : r - 1 <= Z.log2 (x mod 2 ^ bits (width T))).
  { destruct (Z.lt_ge_cases (Z.log2 (x mod 2 ^ bits (width T))) (r - 1)) as [Hlt|]; [|lia].
    rewrite <- (Z.mod_pow2_bits_low x (bits (width T)) (r - 1)) in Hbit by lia.
    rewrite Z.bits_above_log2 in Hbit by lia. discriminate. }
  split; [lia|].
  intros Hs.
  assert (Hxm : x mod 2 ^ bits (width T) = x).
  { apply Z.mod_small. unfold in_range, min_value, max_value in Hr.
    rewrite Hs in Hr. lia. }
  rewrite Hxm in *. split.
  - intros E. exists (r - 1). split; [lia|].
    apply Z.bits_inj'. intros j Hj.
    rewrite Z.pow2_bits_eqb by lia.
    destruct (Z.eqb_spec (r - 1) j) as [<-|Hne]; [exact Hbit|].
    destruct (Z.lt_ge_cases j (r - 1)).
    + apply Hclear. lia.
    + apply Z.bits_above_log2; lia.
  - intros [k [Hk E]].
    rewrite Hfls, E, Z.log2_pow2 by lia.
    rewrite E, Z.pow2_bits_eqb in Hbit by lia.
    apply Z.eqb_eq in Hbit. lia.
Qed.

Lemma findFirstSet_le_findLastSet_witness :
  in_range uint16_t 64 /\ (64 <> 0) /\
  findFirstSet uint16_t 64 <= findLastSet uint16_t 64.
Proof.
  assert (Hr : in_range uint16_t 64) by solve_range.
  assert (Hx : 64 <> 0) by lia.
  split; [exact Hr|]. split; [exact Hx|].
  apply (findFirstSet_le_findLastSet uint16_t 64 Hr Hx).
Defined.

(** X2: [findFirstSet(x) - 1] is the exponent of the largest power of two
    that divides a nonzero [x]. *)
Theorem findFirstSet_valuation (T : IntType) (x : Z) :
  in_range T x -> x <> 0 ->
  x mod 2 ^ (findFirstSet T x - 1) = 0 /\ x mod 2 ^ findFirstSet T x <> 0.
Proof.
  intros Hr Hx.
  destruct (findFirstSet_scalar_spec T x Hr) as [_ [H1 _]].
  destruct (H1 Hx) as [Hrange [Hbit Hclear]].
  split.
  - apply low_bits_clear; [lia|exact Hclear].
  - intros E.
    rewrite <- (Z.mod_pow2_bits_low x (findFirstSet T x) (findFirstSet T x - 1)),
      E, Z.bits_0 in Hbit by lia.
    discriminate.
Qed.

Lemma findFirstSet_valuation_witness :
  in_range int32_t (-24) /\ (-24 <> 0) /\
  (-24) mod 2 ^ (findFirstSet int32_t (-24) - 1) = 0.
Proof.
  assert (Hr : in_range int32_t (-24)) by solve_range.
  assert (Hx : -24 <> 0) by lia.
  split; [exact Hr|]. split; [exact Hx|].
  apply (findFirstSet_valuation int32_t (-24) Hr Hx).
Defined.

(** X3: for unsigned values [findLastSet] brackets its argument between
    two powers of two, and it is monotone. *)
Theorem findLastSet_bracket_monotone (T : IntType) (x y : Z) :
  is_signed T = false -> in_range T x -> in_range T y -> x <= y ->
  findLastSet T x <= findLastSet T y /\
  (x <> 0 -> 2 ^ (findLastSet T x - 1) <= x < 2 ^ findLastSet T x).
Proof.
  intros Hs Hx Hy Hxy.
  assert (E : forall z, in_range T z ->
                findLastSet T z = if z =? 0 then 0 else 1 + Z.log2 z).
  { intros z Hz. unfold findLastSet. rewrite Hs.
    apply findLastSet_unsigned_spec; assumption. }
  rewrite (E x Hx), (E y Hy).
  unfold in_range, min_value, max_value in Hx, Hy. rewrite Hs in Hx, Hy.
  split.
  - destruct (Z.eqb_spec x 0) as [->|Hx0].
    + destruct (Z.eqb_spec y 0); [lia|].
      pose proof (Z.log2_nonneg y). lia.
    + destruct (Z.eqb_spec y 0); [lia|].
      pose proof (Z.log2_le_mono x y Hxy). lia.
  - intros Hx0. destruct (Z.eqb_spec x 0); [contradiction|].
    destruct (Z.log2_spec x ltac:(lia)) as [L U].
    replace (1 + Z.log2 x - 1) with (Z.log2 x) by lia.
    replace (1 + Z.log2 x) with (Z.succ (Z.log2 x)) by lia.
    split; assumption.
Qed.

Lemma findLastSet_bracket_monotone_witness :
  is_signed uint8_t = false /\ in_range uint8_t 100 /\ in_range uint8_t 200 /\
  findLastSet uint8_t 100 <= findLastSet uint8_t 200 /\
  (2 ^ (findLastSet uint8_t 100 - 1) <= 100 < 2 ^ findLastSet uint8_t 100).
Proof.
  assert (Hx : in_range uint8_t 100) by solve_range.
  assert (Hy : in_range uint8_t 200) by solve_range.
  split; [reflexivity|]. split; [exact Hx|]. split; [exact Hy|].
  destruct (findLastSet_bracket_monotone uint8_t 100 200 eq_refl Hx Hy ltac:(lia))
    as [Hm Hb].
  split; [exact Hm|]. apply Hb. lia.
Defined.

(** The loop of the portable scan gives up exactly when it has fewer units
    of fuel than [1 + floor(log2 x)] tests of its condition. *)
Lemma findLastSetPortable_loop_out_of_fuel (fuel : nat) : forall (x r : Z),
  0 <= x -> Z.of_nat fuel <= Z.log2 x ->
  findLastSetPortable_loop fuel x r = None.
Proof.
  induction fuel as [|fuel IH]; intros x r Hx Hf; [reflexivity|].
  cbn [findLastSetPortable_loop].
  rewrite Z.shiftr_div_pow2 by lia. change (2 ^ 1) with 2.
  assert (Hl : 1 <= Z.log2 x) by lia.
  assert (Hx2 : 2 <= x).
  { destruct (Z.lt_ge_cases x 2) as [Hlt|]; [|lia].
    assert (D : x = 0 \/ x = 1) by lia.
    destruct D as [-> | ->]; cbn in Hl; lia. }
  pose proof (Z.div_mod x 2 ltac:(lia)) as Hdm.
  pose proof (Z.mod_pos_bound x 2 ltac:(lia)) as Hmb.
  destruct (Z.eqb_spec (x / 2) 0) as [E|E]; [lia|].
  apply IH; [lia|].
  assert (Hlog : Z.log2 x = 1 + Z.log2 (x / 2)).
  { pose proof (Z.log2_nonneg (x / 2)) as Hnn.
    destruct (Z.log2_spec (x / 2) ltac:(lia)) as [L U].
    apply Z.log2_unique; [lia|].
    rewrite (Z.pow_succ_r 2 (1 + Z.log2 (x / 2))) by lia.
    rewrite (Z.pow_add_r 2 1) by lia. change (2 ^ 1) with 2.
    rewrite (Z.pow_succ_r 2 (Z.log2 (x / 2))) in U by lia. lia. }
  lia.
Qed.

(** X4: for every unsigned type the portable fallback, called with the
    value converted to [uint64_t], returns what [findLastSet] returns at
    that type; its loop tests its condition [max(1, findLastSet x)] times,
    so as many units of fuel as the type has bits always suffice, and with
    fewer than that number of tests it has not returned. *)
Theorem findLastSetPortable_every_width (T : IntType) (fuel : nat) (x : Z) :
  is_signed T = false -> in_range T x ->
  (Z.log2 x < Z.of_nat fuel ->
   findLastSetPortable fuel (static_cast uint64_t x) = Some (findLastSet T x)) /\
  (Z.of_nat fuel <= Z.log2 x ->
   findLastSetPortable fuel (static_cast uint64_t x) = None) /\
  (bits (width T) <= Z.of_nat fuel ->
   findLastSetPortable fuel (static_cast uint64_t x) = Some (findLastSet T x)).
Proof.
  intros Hs Hr.
  pose proof (bits_bounds (width T)) as Hb.
  assert (E : findLastSet T x = if x =? 0 then 0 else 1 + Z.log2 x).
  { unfold findLastSet. rewrite Hs. apply findLastSet_unsigned_spec; assumption. }
  unfold in_range, min_value, max_value in Hr. rewrite Hs in Hr.
  assert (Hw : 2 ^ bits (width T) <= 2 ^ 64) by (apply Z.pow_le_mono_r; lia).
  assert (Hc : static_cast uint64_t x = x) by (apply static_cast_id; solve_range).
  assert (Hlog : 0 <= Z.log2 x < bits (width T)).
  { split; [apply Z.log2_nonneg|].
    destruct (Z.eq_dec x 0) as [->|Hx]; [cbn; lia|].
    apply Z.log2_lt_pow2; lia. }
  rewrite Hc, E. unfold findLastSetPortable.
  assert (Hsome : Z.log2 x < Z.of_nat fuel ->
            findLastSetPortable_loop fuel x (if x =? 0 then 0 else 1)
            = Some (if x =? 0 then 0 else 1 + Z.log2 x)).
  { intros Hf. destruct fuel as [|fuel]; [lia|].
    rewrite findLastSetPortable_loop_spec.
    + destruct (Z.eqb_spec x 0) as [->|Hx]; reflexivity.
    + split; [lia|].
      destruct (Z.eq_dec x 0) as [->|Hx]; [apply Z.pow_pos_nonneg; lia|].
      apply Z.log2_lt_pow2; lia.
    + destruct (x =? 0); lia.
    + destruct (x =? 0); lia. }
  split; [exact Hsome|]. split; [|intros Hf; apply Hsome; lia].
  intros Hf. apply findLastSetPortable_loop_out_of_fuel; lia.
Qed.

Lemma findLastSetPortable_every_width_witness :
  is_signed uint8_t = false /\ in_range uint8_t 255 /\
  findLastSetPortable 8 (static_cast uint64_t 255) = Some (findLastSet uint8_t 255) /\
  findLastSetPortable 7 (static_cast uint64_t 255) = None.
Proof.
  assert (Hr : in_range uint8_t 255) by solve_range.
  split; [reflexivity|]. split; [exact Hr|].
  destruct (findLastSetPortable_every_width uint8_t 8 255 eq_refl Hr) as [H8 _].
  destruct (findLastSetPortable_every_width uint8_t 7 255 eq_refl Hr) as [_ [H7 _]].
  split; [apply H8; cbn; lia|apply H7; cbn; lia].
Defined.

End BitScanMore.

(** ** PowerOfTwo *)

Section PowerOfTwoMore.

Lemma fls_monotone (a b : Z) : 0 <= a <= b -> fls a <= fls b.
Proof.
  intros H. unfold fls.
  destruct (Z.eqb_spec a 0) as [->|Ha]; destruct (Z.eqb_spec b 0) as [->|Hb0];
    try lia.
  - pose proof (Z.log2_nonneg b). lia.
  - pose proof (Z.log2_le_mono a b ltac:(lia)). lia.
Qed.

Lemma fls_pred_pow2 (k : Z) : 0 <= k -> fls (2 ^ k - 1) = k.
Proof.
  intros Hk. unfold fls.
  destruct (Z.eq_dec k 0) as [->|Hk0]; [reflexivity|].
  assert (2 ^ 1 <= 2 ^ k) by (apply Z.pow_le_mono_r; lia).
  change (2 ^ 1) with 2 in *.
  destruct (Z.eqb_spec (2 ^ k - 1) 0); [lia|].
  replace (2 ^ k - 1) with (Z.pred (2 ^ k)) by lia.
  rewrite (Z.log2_pred_pow2 k) by lia. lia.
Qed.

(** The value of the fast path where the enclosing power of two is
    representable. *)
Lemma nextPowTwo_value (ws : WideShift) (T : IntType) (v : Z) :
  is_signed T = false -> in_range T v -> v <= 2 ^ (bits (width T) - 1) ->
  nextPowTwo ws T v = (if v =? 0 then 1 else 2 ^ fls (v - 1)) /\
  (v <> 0 -> 0 <= fls (v - 1) <= bits (width T) - 1).
Proof.
  intros Hs Hr Hv.
  pose proof (bits_bounds (width T)) as Hb.
  rewrite (nextPowTwo_eq ws T v Hs Hr).
  unfold in_range, min_value, max_value in Hr. rewrite Hs in Hr.
  destruct (Z.eqb_spec v 0) as [->|Hne]; [split; [reflexivity|lia]|].
  pose proof (fls_bounds (v - 1) (bits (width T) - 1) ltac:(lia) ltac:(lia)) as Hk.
  split; [|intros _; exact Hk].
  rewrite shl_one_small by lia.
  apply static_cast_id.
  assert (2 ^ fls (v - 1) < 2 ^ bits (width T)) by (apply Z.pow_lt_mono_r; lia).
  assert (0 < 2 ^ fls (v - 1)) by (apply Z.pow_pos_nonneg; lia).
  unfold in_range, min_value, max_value. rewrite Hs. lia.
Qed.

Lemma pow2_in_range (T : IntType) (k : Z) :
  is_signed T = false -> 0 <= k < bits (width T) ->
  in_range T (2 ^ k) /\ 2 ^ k <= 2 ^ (bits (width T) - 1) /\ 2 ^ k <> 0.
Proof.
  intros Hs Hk.
  assert (0 < 2 ^ k) by (apply Z.pow_pos_nonneg; lia).
  assert (2 ^ k <= 2 ^ (bits (width T) - 1)) by (apply Z.pow_le_mono_r; lia).
  assert (2 ^ (bits (width T) - 1) < 2 ^ bits (width T))
    by (apply Z.pow_lt_mono_r; lia).
  unfold in_range, min_value, max_value. rewrite Hs. lia.
Qed.

Lemma nextPowTwo_pow2 (ws : WideShift) (T : IntType) (k : Z) :
  is_signed T = false -> 0 <= k < bits (width T) ->
  nextPowTwo ws T (2 ^ k) = 2 ^ k.
Proof.
  intros Hs Hk. destruct (pow2_in_range T k Hs Hk) as [Hr [Hle Hnz]].
  destruct (nextPowTwo_value ws T (2 ^ k) Hs Hr Hle) as [E _].
  rewrite E. destruct (Z.eqb_spec (2 ^ k) 0); [contradiction|].
  rewrite fls_pred_pow2 by lia. reflexivity.
Qed.

(** X5: [nextPowTwo] leaves every representable power of two as it is, and
    applying it twice is applying it once. *)
Theorem nextPowTwo_idempotent (ws : WideShift) (T : IntType) :
  is_signed T = false ->
  (forall k, 0 <= k < bits (width T) -> nextPowTwo ws T (2 ^ k) = 2 ^ k) /\
  (forall v, in_range T v -> v <= 2 ^ (bits (width T) - 1) ->
     nextPowTwo ws T (nextPowTwo ws T v) = nextPowTwo ws T v).
Proof.
  intros Hs. split; [intros k Hk; apply nextPowTwo_pow2; assumption|].
  intros v Hr Hv.
  pose proof (bits_bounds (width T)) as Hb.
  destruct (nextPowTwo_value ws T v Hs Hr Hv) as [E Hk]. rewrite E.
  destruct (Z.eqb_spec v 0) as [_|Hne].
  - apply (nextPowTwo_pow2 ws T 0 Hs). lia.
  - apply nextPowTwo_pow2; [exact Hs|]. specialize (Hk Hne). lia.
Qed.

Lemma nextPowTwo_idempotent_witness :
  is_signed uint16_t = false /\ in_range uint16_t 1000 /\
  1000 <= 2 ^ (bits (width uint16_t) - 1) /\
  nextPowTwo MasksCount uint16_t (nextPowTwo MasksCount uint16_t 1000)
  = nextPowTwo MasksCount uint16_t 1000.
Proof.
  assert (Hr : in_range uint16_t 1000) by solve_range.
  assert (Hv : 1000 <= 2 ^ (bits (width uint16_t) - 1)) by (cbn; lia).
  split; [reflexivity|]. split; [exact Hr|]. split; [exact Hv|].
  destruct (nextPowTwo_idempotent MasksCount uint16_t eq_refl) as [_ H].
  apply H; assumption.
Defined.

(** X6: where the enclosing powers of two are representable, [nextPowTwo]
    is monotone. *)
Theorem nextPowTwo_monotone (ws : WideShift) (T : IntType) (v v' : Z) :
  is_signed T = false -> in_range T v -> in_range T v' ->
  v <= v' -> v' <= 2 ^ (bits (width T) - 1) ->
  nextPowTwo ws T v <= nextPowTwo ws T v'.
Proof.
  intros Hs Hr Hr' Hle Hv'.
  destruct (nextPowTwo_value ws T v Hs Hr ltac:(lia)) as [E Hk].
  destruct (nextPowTwo_value ws T v' Hs Hr' Hv') as [E' Hk'].
  rewrite E, E'.
  unfold in_range, min_value, max_value in Hr, Hr'. rewrite Hs in Hr, Hr'.
  destruct (Z.eqb_spec v 0) as [->|Hne]; destruct (Z.eqb_spec v' 0) as [->|Hne'].
  - lia.
  - specialize (Hk' Hne').
    assert (0 < 2 ^ fls (v' - 1)) by (apply Z.pow_pos_nonneg; lia). lia.
  - lia.
  - apply Z.pow_le_mono_r; [lia|]. apply fls_monotone. lia.
Qed.

Lemma nextPowTwo_monotone_witness :
  is_signed uint8_t = false /\ in_range uint8_t 9 /\ in_range uint8_t 100 /\
  nextPowTwo ShiftsOut uint8_t 9 <= nextPowTwo ShiftsOut uint8_t 100.
Proof.
  assert (Hr : in_range uint8_t 9) by solve_range.
  assert (Hr' : in_range uint8_t 100) by solve_range.
  split; [reflexivity|]. split; [exact Hr|]. split; [exact Hr'|].
  apply (nextPowTwo_monotone ShiftsOut uint8_t 9 100 eq_refl Hr Hr');
    [lia|cbn; lia].
Defined.

(** X7: [nextPowTwo] less than doubles a nonzero argument whose enclosing
    power of two is representable. *)
Theorem nextPowTwo_below_double (ws : WideShift) (T : IntType) (v : Z) :
  is_signed T = false -> in_range T v -> v <= 2 ^ (bits (width T) - 1) ->
  v <> 0 -> nextPowTwo ws T v < 2 * v.
Proof.
  intros Hs Hr Hv Hne.
  destruct (nextPowTwo_value ws T v Hs Hr Hv) as [E _]. rewrite E.
  unfold in_range, min_value, max_value in Hr. rewrite Hs in Hr.
  destruct (Z.eqb_spec v 0); [contradiction|].
  destruct (Z.eq_dec v 1) as [->|H1]; [cbn; lia|].
  pose proof (fls_below (v - 1) ltac:(lia)) as Hb.
  assert (Hf : 1 <= fls (v - 1)).
  { unfold fls. destruct (Z.eqb_spec (v - 1) 0); [lia|].
    pose proof (Z.log2_nonneg (v - 1)). lia. }
  replace (fls (v - 1)) with (Z.succ (fls (v - 1) - 1)) by lia.
  rewrite Z.pow_succ_r by lia. lia.
Qed.

Lemma nextPowTwo_below_double_witness :
  is_signed uint32_t = false /\ in_range uint32_t 1025 /\ (1025 <> 0) /\
  nextPowTwo MasksCount uint32_t 1025 < 2 * 1025.
Proof.
  assert (Hr : in_range uint32_t 1025) by solve_range.
  assert (Hne : 1025 <> 0) by lia.
  split; [reflexivity|]. split; [exact Hr|]. split; [exact Hne|].
  apply (nextPowTwo_below_double MasksCount uint32_t 1025 eq_refl Hr);
    [cbn; lia|exact Hne].
Defined.

(** X8: past the largest power of two of the type nothing guards the
    overflow.  The portable path returns 0 at every width; the fast path
    returns 0 at widths 8, 16 and 32, and at width 64 what shifting [1ul] by
    64 gives: 0 where the bits are shifted out, 1 where the count is taken
    modulo 64. *)
Theorem nextPowTwo_overflow (T : IntType) (v : Z) :
  is_signed T = false -> in_range T v -> 2 ^ (bits (width T) - 1) < v ->
  (forall ws fuel, (2 <= fuel)%nat -> nextPowTwoPortable fuel ws T v = Some 0) /\
  (width T <> W64 -> forall ws, nextPowTwo ws T v = 0) /\
  (width T = W64 ->
   nextPowTwo ShiftsOut T v = 0 /\ nextPowTwo MasksCount T v = 1).
Proof.
  intros Hs Hr Hv.
  pose proof (bits_bounds (width T)) as Hb.
  assert (Hr' := Hr).
  unfold in_range, min_value, max_value in Hr'. rewrite Hs in Hr'.
  assert (Hpos : 0 < 2 ^ (bits (width T) - 1)) by (apply Z.pow_pos_nonneg; lia).
  assert (Hf : fls (v - 1) = bits (width T)).
  { pose proof (fls_bounds (v - 1) (bits (width T)) ltac:(lia) ltac:(lia)) as Hk.
    destruct (Z.lt_ge_cases (fls (v - 1)) (bits (width T))) as [Hlt|]; [|lia].
    pose proof (fls_above (v - 1) ltac:(lia)) as Ha.
    assert (2 ^ fls (v - 1) <= 2 ^ (bits (width T) - 1))
      by (apply Z.pow_le_mono_r; lia).
    lia. }
  assert (Hmod : 2 ^ bits (width T) mod 2 ^ bits (width T) = 0)
    by (apply Z.mod_same, Z.pow_nonzero; lia).
  assert (Hv0 : (v =? 0) = false) by (apply Z.eqb_neq; lia).
  split; [|split].
  - intros ws fuel Hfuel.
    rewrite (nextPowTwoPortable_spec fuel ws T v Hs Hr Hfuel), Hv0, Hf, Hmod.
    reflexivity.
  - intros Hw ws. rewrite (nextPowTwo_eq ws T v Hs Hr), Hv0, Hf.
    rewrite shl_one_small by (destruct (width T); cbn; try lia; contradiction).
    rewrite (static_cast_unsigned T _ Hs). exact Hmod.
  - intros Hw. rewrite !(nextPowTwo_eq _ T v Hs Hr), Hv0, Hf.
    destruct T as [s w]. cbn in Hs, Hw. subst s w. split; reflexivity.
Qed.

Lemma nextPowTwo_overflow_witness :
  is_signed uint8_t = false /\ in_range uint8_t 200 /\
  2 ^ (bits (width uint8_t) - 1) < 200 /\
  nextPowTwoPortable 2 MasksCount uint8_t 200 = Some 0 /\
  nextPowTwo MasksCount uint8_t 200 = 0.
Proof.
  assert (Hr : in_range uint8_t 200) by solve_range.
  assert (Hv : 2 ^ (bits (width uint8_t) - 1) < 200) by (cbn; lia).
  split; [reflexivity|]. split; [exact Hr|]. split; [exact Hv|].
  destruct (nextPowTwo_overflow uint8_t 200 eq_refl Hr Hv) as [Hp [Hf _]].
  split; [apply Hp; lia|apply Hf; discriminate].
Defined.

(** X9: [nextPowTwoPortable] returns as soon as its loop may test its
    condition twice, and what it returns does not depend on what the
    shifts by 32, 64 and 128 of its loop body do where they are at least as
    wide as the operand. *)
Theorem nextPowTwoPortable_any_shift (fuel : nat) (ws ws' : WideShift)
  (T : IntType) (v : Z) :
  is_signed T = false -> in_range T v ->
  nextPowTwoPortable fuel ws T v = nextPowTwoPortable fuel ws' T v /\
  ((2 <= fuel)%nat -> exists r, nextPowTwoPortable fuel ws T v = Some r /\
                                in_range T r).
Proof.
  intros Hs Hr. split.
  - destruct fuel as [|[|fuel]].
    + unfold nextPowTwoPortable. destruct (v =? 0); reflexivity.
    + unfold nextPowTwoPortable. destruct (v =? 0); [reflexivity|].
      destruct T as [s [| | |]]; reflexivity.
    + rewrite !nextPowTwoPortable_spec by (try assumption; lia). reflexivity.
  - intros Hf. rewrite (nextPowTwoPortable_spec fuel ws T v Hs Hr Hf).
    eexists. split; [reflexivity|].
    pose proof (bits_bounds (width T)) as Hb.
    destruct (v =? 0).
    + unfold in_range, min_value, max_value. rewrite Hs.
      assert (2 ^ 3 <= 2 ^ bits (width T)) by (apply Z.pow_le_mono_r; lia). lia.
    + pose proof (Z.mod_pos_bound (2 ^ fls (v - 1)) (2 ^ bits (width T))
                    ltac:(apply Z.pow_pos_nonneg; lia)).
      unfold in_range, min_value, max_value. rewrite Hs. lia.
Qed.

Lemma nextPowTwoPortable_any_shift_witness :
  is_signed uint64_t = false /\ in_range uint64_t (2 ^ 40 + 1) /\
  nextPowTwoPortable 2 ShiftsOut uint64_t (2 ^ 40 + 1)
  = nextPowTwoPortable 2 MasksCount uint64_t (2 ^ 40 + 1).
Proof.
  assert (Hr : in_range uint64_t (2 ^ 40 + 1)) by solve_range.
  split; [reflexivity|]. split; [exact Hr|].
  apply (nextPowTwoPortable_any_shift 2 ShiftsOut MasksCount uint64_t _ eq_refl Hr).
Defined.

End PowerOfTwoMore.

(** ** EndianConvert and UnalignedAccess *)

Section EndianMore.

Lemma sizeof_bits (T : IntType) :
  bits (width T) = 8 * Z.of_nat (Z.to_nat (sizeof T)).
Proof. destruct T as [s [| | |]]; reflexivity. Qed.

(** The bit pattern of a value, as a number below [2^width]. *)
Lemma pattern_bound (T : IntType) (x : Z) :
  0 <= static_cast (make_unsigned T) x
     < 2 ^ (8 * Z.of_nat (Z.to_nat (sizeof T))).
Proof.
  rewrite <- sizeof_bits.
  pose proof (static_cast_in_range (make_unsigned T) x) as H.
  unfold in_range, min_value, max_value in H. cbn [make_unsigned is_signed width] in H.
  lia.
Qed.

Lemma pattern_of_cast (T : IntType) (y : Z) :
  0 <= y < 2 ^ bits (width T) ->
  static_cast (make_unsigned T) (static_cast T y) = y.
Proof.
  intros Hy. rewrite (static_cast_unsigned (make_unsigned T) _ eq_refl).
  change (bits (width (make_unsigned T))) with (bits (width T)).
  rewrite static_cast_mod. apply Z.mod_small. exact Hy.
Qed.

Lemma cast_of_pattern (T : IntType) (x : Z) :
  in_range T x -> static_cast T (static_cast (make_unsigned T) x) = x.
Proof.
  intros Hr. rewrite (static_cast_unsigned (make_unsigned T) _ eq_refl).
  change (bits (width (make_unsigned T))) with (bits (width T)).
  rewrite static_cast_of_mod. apply static_cast_id, Hr.
Qed.

Lemma bswap_1 (u : Z) : 0 <= u < 2 ^ 8 -> bswap 1 u = u.
Proof.
  intros Hu. unfold bswap. cbn [to_bytes rev app of_bytes].
  rewrite Z.shiftl_0_l, Z.lor_0_r, land_255. apply Z.mod_small. exact Hu.
Qed.

(** [swap] at every width: the byte reversal of the bit pattern. *)
Lemma swap_as_bswap (T : IntType) (x : Z) :
  in_range T x ->
  swap T x
  = static_cast T (bswap (Z.to_nat (sizeof T)) (static_cast (make_unsigned T) x)).
Proof.
  intros Hr. unfold swap, EndianIntBase_swap.
  destruct T as [s w]. destruct w; cbn [width]; try reflexivity.
  change (Z.to_nat (sizeof (mkInt s W8))) with 1%nat.
  rewrite bswap_1 by apply (pattern_bound (mkInt s W8) x).
  symmetry. apply cast_of_pattern, Hr.
Qed.

(** X10: [swap] maps the values of a type onto the values of that type, one
    to one. *)
Theorem swap_permutes_range (T : IntType) (x y : Z) :
  in_range T x -> in_range T y ->
  in_range T (swap T x) /\ (swap T x = swap T y -> x = y).
Proof.
  intros Hx Hy. split.
  - rewrite (swap_as_bswap T x Hx). apply static_cast_in_range.
  - intros E. rewrite <- (swap_involutive T x Hx), <- (swap_involutive T y Hy).
    rewrite E. reflexivity.
Qed.

Lemma swap_permutes_range_witness :
  in_range int16_t (-2) /\ in_range int16_t 255 /\
  in_range int16_t (swap int16_t (-2)).
Proof.
  assert (Hx : in_range int16_t (-2)) by solve_range.
  assert (Hy : in_range int16_t 255) by solve_range.
  split; [exact Hx|]. split; [exact Hy|].
  apply (swap_permutes_range int16_t (-2) 255 Hx Hy).
Defined.

(** X11: the signed and the unsigned type of a width swap the same bit
    pattern. *)
Theorem swap_signed_unsigned (T : IntType) (x : Z) :
  in_range T x ->
  static_cast (make_unsigned T) (swap T x)
  = swap (make_unsigned T) (static_cast (make_unsigned T) x).
Proof.
  intros Hr.
  pose proof (pattern_bound T x) as Hu.
  pose proof (bswap_bound (Z.to_nat (sizeof T)) (static_cast (make_unsigned T) x))
    as Hb.
  rewrite <- sizeof_bits in Hb.
  rewrite (swap_as_bswap T x Hr).
  rewrite (swap_as_bswap (make_unsigned T) _ (static_cast_in_range _ x)).
  change (make_unsigned (make_unsigned T)) with (make_unsigned T).
  change (sizeof (make_unsigned T)) with (sizeof T).
  rewrite pattern_of_cast by exact Hb.
  rewrite (static_cast_id (make_unsigned T)
             (static_cast (make_unsigned T) x)) by apply static_cast_in_range.
  symmetry. apply static_cast_id.
  unfold in_range, min_value, max_value. cbn [make_unsigned is_signed width]. lia.
Qed.

Lemma swap_signed_unsigned_witness :
  in_range int32_t (-2) /\
  static_cast uint32_t (swap int32_t (-2)) = swap uint32_t 0xFFFFFFFE.
Proof.
  assert (Hr : in_range int32_t (-2)) by solve_range.
  split; [exact Hr|].
  apply (swap_signed_unsigned int32_t (-2) Hr).
Defined.

(** The bytes of [big(x)] on any host are the bytes of [x] on a big-endian
    host; likewise for [little]. *)
Lemma representation_big_little (order : Order) (T : IntType) (x : Z) :
  in_range T x ->
  representation order T (big order T x) = representation BIG T x /\
  representation order T (little order T x) = representation LITTLE T x.
Proof.
  intros Hr.
  assert (Hsw : representation LITTLE T (swap T x) = representation BIG T x).
  { unfold representation.
    pose proof (bswap_bound (Z.to_nat (sizeof T))
                  (static_cast (make_unsigned T) x)) as Hb.
    rewrite <- sizeof_bits in Hb.
    rewrite (swap_as_bswap T x Hr), pattern_of_cast by exact Hb.
    unfold bswap.
    set (l := to_bytes (Z.to_nat (sizeof T)) (static_cast (make_unsigned T) x)).
    assert (Hl : length (rev l) = Z.to_nat (sizeof T))
      by (rewrite length_rev; apply to_bytes_length).
    pose proof (to_bytes_of_bytes (rev l)
                  (Forall_rev (to_bytes_bytes _ _))) as E.
    rewrite Hl in E. exact E. }
  assert (Hbs : representation BIG T (swap T x) = representation LITTLE T x).
  { unfold representation in *. rewrite Hsw. apply rev_involutive. }
  destruct order; cbn [big little EndianInt_big EndianInt_little];
    split; try reflexivity; assumption.
Qed.

Lemma length_representation (order : Order) (T : IntType) (x : Z) :
  length (representation order T x) = Z.to_nat (sizeof T).
Proof.
  unfold representation. destruct order; rewrite ?length_rev; apply to_bytes_length.
Qed.

Lemma value_of_representation (order : Order) (T : IntType) (x : Z) :
  in_range T x -> value_of order T (representation order T x) = x.
Proof.
  intros Hr. unfold value_of, representation.
  assert (E : static_cast T
                (of_bytes (to_bytes (Z.to_nat (sizeof T))
                             (static_cast (make_unsigned T) x))) = x).
  { rewrite of_bytes_to_bytes, <- sizeof_bits, static_cast_of_mod.
    apply cast_of_pattern, Hr. }
  destruct order; [exact E|]. rewrite rev_involutive. exact E.
Qed.

Lemma firstn_app_exact (A : Type) (l1 l2 : list A) :
  firstn (length l1) (l1 ++ l2) = l1.
Proof.
  rewrite firstn_app, Nat.sub_diag, firstn_all. cbn. apply app_nil_r.
Qed.

Lemma skipn_app_exact (A : Type) (l1 l2 : list A) :
  skipn (length l1) (l1 ++ l2) = l2.
Proof.
  rewrite skipn_app, Nat.sub_diag, skipn_all. reflexivity.
Qed.

Lemma Forall_firstn_skipn (A : Type) (P : A -> Prop) (n p : nat) (l : list A) :
  Forall P l -> Forall P (firstn n (skipn p l)).
Proof.
  intros H.
  assert (Hs : Forall P (skipn p l)).
  { rewrite <- (firstn_skipn p l) in H. apply Forall_app in H. apply H. }
  rewrite <- (firstn_skipn n (skipn p l)) in Hs. apply Forall_app in Hs. apply Hs.
Qed.

(** X12: a value stored is the value loaded from the same address, at any
    address at which it fits, aligned or not; the store changes no byte
    outside the [sizeof(T)] bytes at its address, and keeps the size of the
    memory. *)
Theorem store_load_roundtrip (order : Order) (T : IntType) (mem : list Z)
  (p : nat) (x : Z) :
  in_range T x -> (p + Z.to_nat (sizeof T) <= length mem)%nat ->
  exists mem',
    storeUnaligned order T mem p x = Some mem' /\
    loadUnaligned order T mem' p = Some x /\
    length mem' = length mem /\
    forall i, (i < p \/ p + Z.to_nat (sizeof T) <= i)%nat ->
              nth_error mem' i = nth_error mem i.
Proof.
  intros Hr Hfit.
  set (n := Z.to_nat (sizeof T)) in *.
  set (rep := representation order T x).
  assert (Hrep : length rep = n) by apply length_representation.
  assert (Hpre : length (firstn p mem) = p) by (apply firstn_length_le; lia).
  exists (firstn p mem ++ rep ++ skipn (p + n) mem).
  assert (Hlen : length (firstn p mem ++ rep ++ skipn (p + n) mem) = length mem).
  { rewrite !length_app, Hpre, Hrep, length_skipn. lia. }
  split; [|split; [|split]].
  - unfold storeUnaligned. fold n.
    destruct (Nat.leb_spec (p + n) (length mem)); [reflexivity|lia].
  - unfold loadUnaligned. fold n. rewrite Hlen.
    destruct (Nat.leb_spec (p + n) (length mem)); [|lia].
    f_equal.
    rewrite <- Hpre at 1. rewrite skipn_app_exact.
    rewrite <- Hrep at 1. rewrite firstn_app_exact.
    apply value_of_representation, Hr.
  - exact Hlen.
  - intros i [Hi|Hi].
    + rewrite nth_error_app1 by lia.
      rewrite nth_error_firstn.
      destruct (Nat.ltb_spec i p); [reflexivity|lia].
    + rewrite nth_error_app2 by lia.
      rewrite nth_error_app2 by lia.
      rewrite nth_error_skipn. f_equal. lia.
Qed.

Lemma store_load_roundtrip_witness :
  in_range int16_t (-2) /\
  (1 + Z.to_nat (sizeof int16_t) <= length [1; 2; 3; 4])%nat /\
  exists mem',
    storeUnaligned BIG int16_t [1; 2; 3; 4] 1 (-2) = Some mem' /\
    loadUnaligned BIG int16_t mem' 1 = Some (-2).
Proof.
  assert (Hr : in_range int16_t (-2)) by solve_range.
  assert (Hfit : (1 + Z.to_nat (sizeof int16_t) <= length [1; 2; 3; 4])%nat)
    by (cbn; lia).
  split; [exact Hr|]. split; [exact Hfit|].
  destruct (store_load_roundtrip BIG int16_t [1; 2; 3; 4] 1 (-2) Hr Hfit)
    as [mem' [Hs [Hl _]]].
  exists mem'. split; assumption.
Defined.

(** X13: storing [big(x)] writes, on either host, the bytes of [x] most
    significant first, and storing [little(x)] writes them least
    significant first. *)
Theorem store_big_is_big_endian (order : Order) (T : IntType) (mem : list Z)
  (p : nat) (x : Z) :
  in_range T x ->
  storeUnaligned order T mem p (big order T x) = storeUnaligned BIG T mem p x /\
  storeUnaligned order T mem p (little order T x)
  = storeUnaligned LITTLE T mem p x /\
  representation BIG T x = rev (representation LITTLE T x).
Proof.
  intros Hr. destruct (representation_big_little order T x Hr) as [Hb Hl].
  unfold storeUnaligned. rewrite Hb, Hl. repeat split; reflexivity.
Qed.

Lemma store_big_is_big_endian_witness :
  in_range uint32_t 0x11223344 /\
  storeUnaligned LITTLE uint32_t [0; 0; 0; 0; 0] 1 (big LITTLE uint32_t 0x11223344)
  = Some [0; 0x11; 0x22; 0x33; 0x44].
Proof.
  assert (Hr : in_range uint32_t 0x11223344) by solve_range.
  split; [exact Hr|].
  destruct (store_big_is_big_endian LITTLE uint32_t [0; 0; 0; 0; 0] 1 _ Hr)
    as [H _].
  rewrite H. reflexivity.
Defined.

(** X14: loading on either host and converting with [big] gives the value
    whose bytes, most significant first, are the bytes at the address; with
    [little], least significant first. *)
Theorem load_big_is_big_endian (order : Order) (T : IntType) (mem : list Z)
  (p : nat) :
  Forall is_byte mem ->
  option_map (big order T) (loadUnaligned order T mem p)
  = loadUnaligned BIG T mem p /\
  option_map (little order T) (loadUnaligned order T mem p)
  = loadUnaligned LITTLE T mem p.
Proof.
  intros Hmem.
  unfold loadUnaligned.
  set (n := Z.to_nat (sizeof T)).
  destruct (Nat.leb_spec (p + n) (length mem)) as [Hfit|]; [|split; reflexivity].
  set (l := firstn n (skipn p mem)).
  assert (Hl : length l = n).
  { unfold l. rewrite firstn_length_le; [reflexivity|]. rewrite length_skipn. lia. }
  assert (Hb : Forall is_byte l).
  { unfold l. apply Forall_firstn_skipn, Hmem. }
  assert (Hsw : forall k, Forall is_byte k -> length k = n ->
                  swap T (static_cast T (of_bytes k))
                  = static_cast T (of_bytes (rev k))).
  { intros k Hk Hlen.
    pose proof (of_bytes_bound k Hk) as Hbound.
    rewrite Hlen in Hbound. unfold n in Hbound. rewrite <- sizeof_bits in Hbound.
    rewrite swap_as_bswap by apply static_cast_in_range.
    rewrite pattern_of_cast by exact Hbound.
    unfold bswap. fold n. rewrite <- Hlen, to_bytes_of_bytes by exact Hk.
    reflexivity. }
  cbn [option_map]. unfold value_of.
  destruct order; cbn [big little EndianInt_big EndianInt_little]; split;
    try reflexivity; f_equal.
  - apply (Hsw l Hb Hl).
  - fold (swap T (static_cast T (of_bytes (rev l)))).
    rewrite (Hsw (rev l)), rev_involutive;
      [reflexivity|apply Forall_rev, Hb|rewrite length_rev; exact Hl].
Qed.

Lemma load_big_is_big_endian_witness :
  Forall is_byte [0; 0x11; 0x22; 0x33; 0x44] /\
  option_map (big LITTLE uint32_t)
    (loadUnaligned LITTLE uint32_t [0; 0x11; 0x22; 0x33; 0x44] 1)
  = Some 0x11223344.
Proof.
  assert (Hm : Forall is_byte [0; 0x11; 0x22; 0x33; 0x44])
    by (repeat constructor; unfold is_byte; lia).
  split; [exact Hm|].
  destruct (load_big_is_big_endian LITTLE uint32_t _ 1 Hm) as [H _].
  rewrite H. reflexivity.
Defined.

End EndianMore.

(** ** BitRange: moving and measuring *)

Section BitIteratorMore.

Variable T : IntType.

(** A conversion to [ssize_t] of a number congruent modulo [2^64] to one
    that fits. *)
Lemma ssize_congruent (z z' : Z) :
  z mod 2 ^ 64 = z' mod 2 ^ 64 -> - 2 ^ 63 <= z' < 2 ^ 63 ->
  static_cast ssize_t z = z'.
Proof.
  intros E Hz'.
  rewrite <- (static_cast_of_mod ssize_t z). change (bits (width ssize_t)) with 64.
  rewrite E. change 64 with (bits (width ssize_t)) at 1.
  rewrite static_cast_of_mod. apply ssize_id. exact Hz'.
Qed.

Lemma size_mod (z : Z) : static_cast size_t z = z mod 2 ^ 64.
Proof. reflexivity. Qed.

Lemma ssize_mod (z : Z) : static_cast ssize_t z mod 2 ^ 64 = z mod 2 ^ 64.
Proof. apply (static_cast_mod ssize_t z). Qed.

Lemma distance_to_position (a b : BitIterator) :
  - 2 ^ 63 <= position T b - position T a < 2 ^ 63 ->
  distance_to T a b = position T b - position T a.
Proof.
  intros Hd. unfold distance_to. apply ssize_congruent; [|exact Hd].
  rewrite !size_mod, Z.mod_mod by lia.
  rewrite <- Z.add_mod by lia.
  rewrite Z.add_mod, Z.mul_mod_idemp_l, ssize_mod by lia.
  rewrite (Z.mul_mod (static_cast ssize_t (base b - base a))), ssize_mod by lia.
  rewrite <- Z.mul_mod, <- Z.add_mod by lia.
  f_equal. unfold position. ring.
Qed.

Lemma position_injective (a b : BitIterator) :
  offset_ok T a -> offset_ok T b -> position T a = position T b -> a = b.
Proof.
  intros Ha Hb E.
  rewrite <- (at_position_of T a Ha), <- (at_position_of T b Hb), E. reflexivity.
Qed.

(** X15: a decrement undoes an increment and an increment a decrement,
    across block boundaries too. *)
Theorem increment_decrement_inverse (it : BitIterator) :
  offset_ok T it ->
  decrement T (increment T it) = it /\ increment T (decrement T it) = it.
Proof.
  intros Hok. split.
  - rewrite (increment_position T it Hok).
    rewrite decrement_position by apply at_position_ok.
    rewrite position_at.
    replace (position T it + 1 - 1) with (position T it) by lia.
    apply at_position_of, Hok.
  - rewrite (decrement_position T it Hok).
    rewrite increment_position by apply at_position_ok.
    rewrite position_at.
    replace (position T it - 1 + 1) with (position T it) by lia.
    apply at_position_of, Hok.
Qed.

(** X16: [distance_to] is the difference of the global bit positions,
    negative when the other iterator is before this one; it is 0 exactly
    between iterators that [equal] holds of. *)
Theorem distance_to_difference (a b : BitIterator) :
  offset_ok T a -> offset_ok T b ->
  - 2 ^ 63 <= position T b - position T a < 2 ^ 63 ->
  distance_to T a b = position T b - position T a /\
  (equal a b = true <-> a = b) /\
  (distance_to T a b = 0 <-> equal a b = true).
Proof.
  intros Ha Hb Hd.
  rewrite (distance_to_position a b Hd).
  assert (Heq : equal a b = true <-> a = b).
  { unfold equal. rewrite andb_true_iff, !Z.eqb_eq. split.
    - intros [Ho Hbase]. destruct a, b. cbn in *. subst. reflexivity.
    - intros ->. split; reflexivity. }
  split; [reflexivity|]. split; [exact Heq|].
  rewrite Heq. split.
  - intros E. apply position_injective; [assumption|assumption|lia].
  - intros ->. lia.
Qed.

(** X17: [advance] by the distance to an iterator that is not before this
    one arrives at that iterator, and the distance to where [advance] by
    [n >= 0] arrives is [n]. *)
Theorem advance_distance_roundtrip (a b : BitIterator) (n : Z) :
  offset_ok T a -> offset_ok T b ->
  0 <= position T b - position T a < 2 ^ 63 ->
  0 <= n < 2 ^ 63 ->
  advance T a (distance_to T a b) = b /\
  distance_to T a (advance T a n) = n.
Proof.
  intros Ha Hb Hd Hn. split.
  - rewrite (distance_to_position a b ltac:(lia)).
    rewrite (advance_position T a _ Ha), size_id by lia.
    replace (position T a + (position T b - position T a)) with (position T b)
      by lia.
    apply at_position_of, Hb.
  - rewrite (advance_position T a n Ha), size_id by lia.
    rewrite distance_to_position; rewrite position_at; lia.
Qed.

(** X18: two advances by offsets that are not negative are one advance by
    their sum. *)
Theorem advance_advance (it : BitIterator) (m n : Z) :
  offset_ok T it -> 0 <= m -> 0 <= n -> m + n < 2 ^ 63 ->
  advance T (advance T it m) n = advance T it (m + n).
Proof.
  intros Hok Hm Hn Hmn.
  rewrite (advance_position T it m Hok), (advance_position T it (m + n) Hok).
  rewrite advance_position by apply at_position_ok.
  rewrite position_at, !size_id by lia.
  f_equal. lia.
Qed.

(** X19: the constructor's assertion rejects every bit offset that is not
    below [bitsPerBlock], also one so large that the [ssize_t] member holds
    it as a negative number. *)
Theorem BitIterator_new_rejects (iter off : Z) :
  in_range size_t off -> bitsPerBlock T <= off ->
  BitIterator_new T iter off = Err AssertFailed.
Proof.
  intros Hr Hoff.
  change (0 <= off <= 2 ^ 64 - 1) in Hr.
  unfold BitIterator_new. cbn [bitOffset_].
  rewrite size_mod, ssize_mod, Z.mod_small by lia.
  destruct (Z.ltb_spec off (bitsPerBlock T)); [lia|reflexivity].
Qed.


(** X21: from the first bit of block [b], [L * bitsPerBlock] single
    increments arrive at the first bit of block [b + L], and [distance_to]
    between the two is [L * bitsPerBlock]; [advanceToNextBlock] is the
    advance over the rest of the current block. *)
Theorem blocks_traversal (b L : Z) (it : BitIterator) :
  0 <= L -> L * bitsPerBlock T < 2 ^ 63 -> offset_ok T it ->
  increments T (Z.to_nat (L * bitsPerBlock T)) (mkBitIterator b 0)
  = mkBitIterator (b + L) 0 /\
  distance_to T (mkBitIterator b 0) (mkBitIterator (b + L) 0)
  = L * bitsPerBlock T /\
  advanceToNextBlock it = advance T it (bitsPerBlock T - bitOffset_ it).
Proof.
  intros HL Hfit Hok.
  pose proof (bitsPerBlock_bounds T) as Hb.
  assert (Hok0 : offset_ok T (mkBitIterator b 0))
    by (unfold offset_ok; cbn [bitOffset_]; lia).
  assert (Hblock : forall c, at_position T (c * bitsPerBlock T) = mkBitIterator c 0).
  { intros c. unfold at_position. f_equal.
    - apply Z.div_mul. lia.
    - apply Z.mod_mul. lia. }
  split; [|split].
  - rewrite (increments_position T _ _ Hok0), Z2Nat.id by nia.
    unfold position. cbn [base bitOffset_].
    replace (b * bitsPerBlock T + 0 + L * bitsPerBlock T)
      with ((b + L) * bitsPerBlock T) by ring.
    apply Hblock.
  - rewrite distance_to_position; unfold position; cbn [base bitOffset_]; nia.
  - assert (Hoff : 0 <= bitOffset_ it < bitsPerBlock T) by exact Hok.
    rewrite (advance_position T it _ Hok), size_id by lia.
    unfold advanceToNextBlock, position.
    replace (base it * bitsPerBlock T + bitOffset_ it
             + (bitsPerBlock T - bitOffset_ it))
      with ((base it + 1) * bitsPerBlock T) by ring.
    symmetry. apply Hblock.
Qed.

End BitIteratorMore.

Lemma increment_decrement_inverse_witness :
  offset_ok uint32_t (mkBitIterator 5 0) /\
  increment uint32_t (decrement uint32_t (mkBitIterator 5 0)) = mkBitIterator 5 0.
Proof.
  assert (Hok : offset_ok uint32_t (mkBitIterator 5 0))
    by (unfold offset_ok; cbn; lia).
  split; [exact Hok|].
  apply (increment_decrement_inverse uint32_t _ Hok).
Defined.

Lemma distance_to_difference_witness :
  offset_ok uint8_t (mkBitIterator 3 6) /\ offset_ok uint8_t (mkBitIterator 1 7) /\
  distance_to uint8_t (mkBitIterator 3 6) (mkBitIterator 1 7) = -15.
Proof.
  assert (Ha : offset_ok uint8_t (mkBitIterator 3 6)) by (unfold offset_ok; cbn; lia).
  assert (Hb : offset_ok uint8_t (mkBitIterator 1 7)) by (unfold offset_ok; cbn; lia).
  split; [exact Ha|]. split; [exact Hb|].
  destruct (distance_to_difference uint8_t _ _ Ha Hb) as [H _].
  - unfold position. cbn. lia.
  - rewrite H. reflexivity.
Defined.

Lemma advance_distance_roundtrip_witness :
  offset_ok uint16_t (mkBitIterator 2 9) /\ offset_ok uint16_t (mkBitIterator 7 3) /\
  advance uint16_t (mkBitIterator 2 9)
    (distance_to uint16_t (mkBitIterator 2 9) (mkBitIterator 7 3))
  = mkBitIterator 7 3.
Proof.
  assert (Ha : offset_ok uint16_t (mkBitIterator 2 9)) by (unfold offset_ok; cbn; lia).
  assert (Hb : offset_ok uint16_t (mkBitIterator 7 3)) by (unfold offset_ok; cbn; lia).
  split; [exact Ha|]. split; [exact Hb|].
  apply (advance_distance_roundtrip uint16_t _ _ 0 Ha Hb).
  - unfold position. cbn. lia.
  - lia.
Defined.

Lemma advance_advance_witness :
  offset_ok uint64_t (mkBitIterator 0 60) /\
  advance uint64_t (advance uint64_t (mkBitIterator 0 60) 7) 130
  = advance uint64_t (mkBitIterator 0 60) (7 + 130).
Proof.
  assert (Hok : offset_ok uint64_t (mkBitIterator 0 60))
    by (unfold offset_ok; cbn; lia).
  split; [exact Hok|].
  apply (advance_advance uint64_t _ 7 130 Hok); lia.
Defined.

Lemma BitIterator_new_rejects_witness :
  in_range size_t (2 ^ 64 - 1) /\ bitsPerBlock uint64_t <= 2 ^ 64 - 1 /\
  BitIterator_new uint64_t 0 (2 ^ 64 - 1) = Err AssertFailed.
Proof.
  assert (Hr : in_range size_t (2 ^ 64 - 1)) by solve_range.
  assert (Hoff : bitsPerBlock uint64_t <= 2 ^ 64 - 1) by (cbn; lia).
  split; [exact Hr|]. split; [exact Hoff|].
  apply (BitIterator_new_rejects uint64_t 0 _ Hr Hoff).
Defined.


Lemma blocks_traversal_witness :
  offset_ok uint8_t (mkBitIterator 0 3) /\
  increments uint8_t (Z.to_nat (3 * bitsPerBlock uint8_t)) (mkBitIterator 2 0)
  = mkBitIterator (2 + 3) 0.
Proof.
  assert (Hok : offset_ok uint8_t (mkBitIterator 0 3))
    by (unfold offset_ok; cbn; lia).
  split; [exact Hok|].
  apply (blocks_traversal uint8_t 2 3 _ ltac:(lia) ltac:(cbn; lia) Hok).
Defined.

(** ** BitRange: the block-wise scan and the bit-by-bit search *)

Section RangeScanMore.

Variable T : IntType.
Hypothesis T_unsigned : is_signed T = false.

(** What both searches establish about their result. *)
Lemma first_set_or_end_unique (blocks : list Z) (begin end_ r r' : BitIterator) :
  first_set_in T blocks begin end_ r \/
  (r = end_ /\ clear_between T blocks (position T begin) (position T end_)) ->
  first_set_in T blocks begin end_ r' \/
  (r' = end_ /\ clear_between T blocks (position T begin) (position T end_)) ->
  r = r'.
Proof.
  intros [[Hok [Hpos [Hbit Hclr]]]|[E Hclr]] [[Hok' [Hpos' [Hbit' Hclr']]]|[E' Hclr']].
  - apply (position_injective T); [assumption|assumption|].
    destruct (Z.lt_total (position T r) (position T r')) as [Hlt|[Heq|Hgt]].
    + rewrite (Hclr' (position T r)) in Hbit by lia. discriminate.
    + exact Heq.
    + rewrite (Hclr (position T r')) in Hbit' by lia. discriminate.
  - rewrite (Hclr' (position T r)) in Hbit by lia. discriminate.
  - rewrite (Hclr (position T r')) in Hbit' by lia. discriminate.
  - congruence.
Qed.

Lemma bit_at_position (blocks : list Z) (it : BitIterator) (v : Z) :
  offset_ok T it -> 0 <= base it ->
  nth_error blocks (Z.to_nat (base it)) = Some v ->
  bit_at T blocks (position T it) = Z.testbit v (bitOffset_ it).
Proof.
  intros Hok Hbase Hv. unfold position.
  apply (bit_at_block T blocks); assumption.
Qed.

(** The bit-by-bit search finds the first set bit of a valid range, or
    [last]. *)
Lemma std_find_spec (blocks : list Z) (last : BitIterator) (n : nat) :
  Forall (in_range T) blocks ->
  forall first,
    valid_range T blocks first last ->
    Z.of_nat n = position T last - position T first ->
    exists r,
      (forall fuel, (n < fuel)%nat -> std_find T fuel blocks first last = Ok r) /\
      (first_set_in T blocks first last r \/
       (r = last /\
        clear_between T blocks (position T first) (position T last))).
Proof.
  intros Hblocks.
  pose proof (bitsPerBlock_bounds T) as Hb.
  induction n as [|n IH]; intros first Hvalid Hn;
    destruct Hvalid as [Hokf [Hokl [Hbase [Hord [Hlen Hlast]]]]].
  - assert (E : first = last)
      by (apply (position_injective T); [assumption|assumption|lia]).
    exists last. split.
    + intros [|fuel] Hfuel; [lia|]. cbn [std_find]. rewrite E.
      unfold equal. rewrite !Z.eqb_refl. reflexivity.
    + right. split; [reflexivity|]. intros p Hp. lia.
  - assert (Hof : 0 <= bitOffset_ first < bitsPerBlock T) by exact Hokf.
    assert (Hol : 0 <= bitOffset_ last < bitsPerBlock T) by exact Hokl.
    assert (Hlt : position T first < position T last) by lia.
    assert (Hneq : equal first last = false).
    { unfold equal. apply andb_false_iff.
      destruct (Z.eqb_spec (bitOffset_ first) (bitOffset_ last)) as [Eo|]; [|left; reflexivity].
      right. apply Z.eqb_neq. intros Eb. unfold position in Hlt. rewrite Eo, Eb in Hlt. lia. }
    assert (Hin : 0 <= base first < Z.of_nat (length blocks)).
    { split; [exact Hbase|]. unfold position in Hlt.
      destruct (Z.eq_dec (base first) (base last)) as [Eb|Eb].
      - rewrite Eb in *. apply Hlast. lia.
      - assert (base first <= base last) by nia. lia. }
    destruct (deref_block T blocks Hblocks (base first) Hin) as [v [Hd [Hnth Hv]]].
    assert (Hoff : bitOffset first = bitOffset_ first)
      by (unfold bitOffset; apply size_id; lia).
    assert (Hstep : forall fuel,
              std_find T (S fuel) blocks first last
              = if Z.testbit v (bitOffset_ first) then Ok first
                else std_find T fuel blocks (increment T first) last).
    { intros fuel. cbn [std_find]. rewrite Hneq. unfold dereference.
      rewrite Hd, Hoff. reflexivity. }
    pose proof (bit_at_position blocks first v Hokf Hbase Hnth) as Hbit.
    destruct (Z.testbit v (bitOffset_ first)) eqn:Eb.
    + exists first. split.
      * intros [|fuel] Hfuel; [lia|]. apply Hstep.
      * left. unfold first_set_in. split; [exact Hokf|]. split; [lia|].
        split; [exact Hbit|]. intros p Hp. lia.
    + assert (Hinc : increment T first = at_position T (position T first + 1))
        by (apply increment_position, Hokf).
      assert (Hposi : position T (increment T first) = position T first + 1)
        by (rewrite Hinc; apply position_at).
      assert (Hoki : offset_ok T (increment T first))
        by (rewrite Hinc; apply at_position_ok).
      assert (Hbasei : 0 <= base (increment T first)).
      { rewrite Hinc. unfold at_position. cbn [base].
        apply Z.div_pos; [|lia]. unfold position. nia. }
      destruct (IH (increment T first)) as [r [Hrun Hr]].
      { unfold valid_range. repeat split; try assumption; try lia; apply Hoki. }
      { lia. }
      exists r. split.
      * intros [|fuel] Hfuel; [lia|]. rewrite Hstep. apply Hrun. lia.
      * destruct Hr as [[Hokr [Hposr [Hbitr Hclr]]]|[Er Hclr]].
        -- left. unfold first_set_in. split; [exact Hokr|]. split; [lia|].
           split; [exact Hbitr|]. intros p Hp.
           destruct (Z.eq_dec p (position T first)) as [->|Hne]; [exact Hbit|].
           apply Hclr. lia.
        -- right. split; [exact Er|]. intros p Hp.
           destruct (Z.eq_dec p (position T first)) as [->|Hne]; [exact Hbit|].
           apply Hclr. lia.
Qed.

(** X22: on a valid range over unsigned blocks the block-wise
    [findFirstSet] returns the iterator that the bit-by-bit search
    [std::find(begin, end, true)] returns. *)
Theorem findFirstSet_range_is_std_find (ws : WideShift) (blocks : list Z)
  (begin end_ : BitIterator) :
  Forall (in_range T) blocks -> valid_range T blocks begin end_ ->
  exists r,
    (forall fuel, (Z.to_nat (base end_ - base begin) < fuel)%nat ->
       findFirstSet_range T ws fuel blocks begin end_ = Ok r) /\
    (forall fuel,
       (Z.to_nat (position T end_ - position T begin) < fuel)%nat ->
       std_find T fuel blocks begin end_ = Ok r).
Proof.
  intros Hblocks Hvalid.
  destruct (findFirstSet_range_spec T ws T_unsigned blocks Hblocks begin end_ Hvalid)
    as [r [Hrun Hr]].
  assert (Hord : position T begin <= position T end_) by apply Hvalid.
  destruct (std_find_spec blocks end_
              (Z.to_nat (position T end_ - position T begin)) Hblocks
              begin Hvalid ltac:(lia)) as [r' [Hrun' Hr']].
  exists r. split; [exact Hrun|].
  rewrite (first_set_or_end_unique blocks begin end_ r r' Hr Hr'). exact Hrun'.
Qed.

(** X23: the result of the ranged [findFirstSet] depends on no bit outside
    the range: over two block sequences that agree on the bits of
    [begin, end) it returns the same iterator. *)
Theorem findFirstSet_range_local (ws : WideShift) (blocks blocks' : list Z)
  (begin end_ : BitIterator) :
  Forall (in_range T) blocks -> Forall (in_range T) blocks' ->
  valid_range T blocks begin end_ -> valid_range T blocks' begin end_ ->
  (forall p, position T begin <= p < position T end_ ->
             bit_at T blocks p = bit_at T blocks' p) ->
  forall fuel, (Z.to_nat (base end_ - base begin) < fuel)%nat ->
    findFirstSet_range T ws fuel blocks begin end_
    = findFirstSet_range T ws fuel blocks' begin end_.
Proof.
  intros Hb Hb' Hv Hv' Hsame fuel Hfuel.
  destruct (findFirstSet_range_spec T ws T_unsigned blocks Hb begin end_ Hv)
    as [r [Hrun Hr]].
  destruct (findFirstSet_range_spec T ws T_unsigned blocks' Hb' begin end_ Hv')
    as [r' [Hrun' Hr']].
  rewrite (Hrun fuel Hfuel), (Hrun' fuel Hfuel). f_equal.
  apply (first_set_or_end_unique blocks' begin end_); [|exact Hr'].
  destruct Hr as [[Hok [Hpos [Hbit Hclr]]]|[E Hclr]].
  - left. unfold first_set_in. split; [exact Hok|]. split; [exact Hpos|].
    split.
    + rewrite <- Hsame by lia. exact Hbit.
    + intros p Hp. rewrite <- Hsame by lia. apply Hclr. exact Hp.
  - right. split; [exact E|].
    intros p Hp. rewrite <- Hsame by lia. apply Hclr. exact Hp.
Qed.

(** A result of the scan is its result with any more fuel. *)
Lemma findFirstSet_loop_more_fuel (ws : WideShift) (blocks : list Z)
  (end_ : BitIterator) (f : nat) :
  forall f' b l, (f <= f')%nat ->
    findFirstSet_loop T ws f blocks b end_ = Ok l ->
    findFirstSet_loop T ws f' blocks b end_ = Ok l.
Proof.
  induction f as [|f IH]; intros f' b l Hle Hl; [discriminate|].
  destruct f' as [|f']; [lia|].
  cbn [findFirstSet_loop] in *.
  destruct (base b =? base end_); [exact Hl|].
  destruct (deref blocks (base b)) as [v|e]; [|discriminate].
  cbn [bind] in *.
  destruct (found T b (mask_from T ws v (bitOffset b))) as [[it'|]|e];
    cbn [bind] in *; [exact Hl| |discriminate].
  apply (IH f'); [lia|exact Hl].
Qed.

Lemma findFirstSet_range_more_fuel (ws : WideShift) (blocks : list Z)
  (begin end_ : BitIterator) (f f' : nat) (r : BitIterator) :
  (f <= f')%nat ->
  findFirstSet_range T ws f blocks begin end_ = Ok r ->
  findFirstSet_range T ws f' blocks begin end_ = Ok r.
Proof.
  intros Hle Hr. unfold findFirstSet_range in *.
  destruct (findFirstSet_loop T ws f blocks begin end_) as [l|e] eqn:El;
    [|discriminate].
  rewrite (findFirstSet_loop_more_fuel ws blocks end_ f f' begin l Hle El).
  exact Hr.
Qed.

(** X24: the iterator the ranged [findFirstSet] returns lies between
    [begin] and [end], and it is [end] only when no bit of the range is
    set. *)
Theorem findFirstSet_range_end_only_if_clear (ws : WideShift) (blocks : list Z)
  (begin end_ : BitIterator) (fuel : nat) (r : BitIterator) :
  Forall (in_range T) blocks -> valid_range T blocks begin end_ ->
  findFirstSet_range T ws fuel blocks begin end_ = Ok r ->
  offset_ok T r /\
  position T begin <= position T r <= position T end_ /\
  (equal r end_ = true <->
   clear_between T blocks (position T begin) (position T end_)).
Proof.
  intros Hblocks Hvalid Hres.
  destruct (findFirstSet_range_spec T ws T_unsigned blocks Hblocks begin end_ Hvalid)
    as [r0 [Hrun Hr]].
  assert (Er : r = r0).
  { set (fuel' := Nat.max fuel (S (Z.to_nat (base end_ - base begin)))).
    pose proof (findFirstSet_range_more_fuel ws blocks begin end_ fuel fuel' r
                  ltac:(unfold fuel'; lia) Hres) as Hres'.
    rewrite (Hrun fuel' ltac:(unfold fuel'; lia)) in Hres'.
    injection Hres' as <-. reflexivity. }
  subst r.
  assert (Hord : position T begin <= position T end_) by apply Hvalid.
  assert (Hoke : offset_ok T end_) by apply Hvalid.
  assert (Heq : equal r0 end_ = true <-> r0 = end_).
  { unfold equal. rewrite andb_true_iff, !Z.eqb_eq. split.
    - intros [Ho Hbase]. destruct r0, end_. cbn in *. subst. reflexivity.
    - intros ->. split; reflexivity. }
  destruct Hr as [[Hok [Hpos [Hbit Hclr]]]|[E Hclr]].
  - split; [exact Hok|]. split; [lia|]. rewrite Heq. split.
    + intros ->. lia.
    + intros Hall. rewrite (Hall (position T r0)) in Hbit by lia. discriminate.
  - subst r0. split; [exact Hoke|]. split; [lia|]. rewrite Heq. tauto.
Qed.

End RangeScanMore.

Lemma findFirstSet_range_is_std_find_witness :
  is_signed uint8_t = false /\
  Forall (in_range uint8_t) [0; 0; 16; 255] /\
  valid_range uint8_t [0; 0; 16; 255] (mkBitIterator 0 3) (mkBitIterator 3 0) /\
  std_find uint8_t 22 [0; 0; 16; 255] (mkBitIterator 0 3) (mkBitIterator 3 0)
  = findFirstSet_range uint8_t MasksCount 4 [0; 0; 16; 255]
      (mkBitIterator 0 3) (mkBitIterator 3 0).
Proof.
  assert (Hb : Forall (in_range uint8_t) [0; 0; 16; 255])
    by (repeat constructor; solve_range).
  assert (Hv : valid_range uint8_t [0; 0; 16; 255]
                 (mkBitIterator 0 3) (mkBitIterator 3 0)).
  { unfold valid_range, offset_ok, position. cbn. repeat split; lia. }
  split; [reflexivity|]. split; [exact Hb|]. split; [exact Hv|].
  destruct (findFirstSet_range_is_std_find uint8_t eq_refl MasksCount _ _ _ Hb Hv)
    as [r [H1 H2]].
  rewrite (H1 4%nat), (H2 22%nat) by (cbn; lia). reflexivity.
Defined.

Lemma findFirstSet_range_local_witness :
  Forall (in_range uint8_t) [0; 0; 16; 255] /\
  Forall (in_range uint8_t) [7; 0; 16; 0] /\
  findFirstSet_range uint8_t ShiftsOut 4 [0; 0; 16; 255]
    (mkBitIterator 0 3) (mkBitIterator 3 0)
  = findFirstSet_range uint8_t ShiftsOut 4 [7; 0; 16; 0]
      (mkBitIterator 0 3) (mkBitIterator 3 0).
Proof.
  assert (Hb : Forall (in_range uint8_t) [0; 0; 16; 255])
    by (repeat constructor; solve_range).
  assert (Hb' : Forall (in_range uint8_t) [7; 0; 16; 0])
    by (repeat constructor; solve_range).
  split; [exact Hb|]. split; [exact Hb'|].
  apply (findFirstSet_range_local uint8_t eq_refl ShiftsOut _ _ _ _ Hb Hb').
  - unfold valid_range, offset_ok, position. cbn. repeat split; lia.
  - unfold valid_range, offset_ok, position. cbn. repeat split; lia.
  - intros p Hp. change (3 <= p < 24) in Hp.
    assert (E : exists n, (n < 24)%nat /\ p = Z.of_nat n)
      by (exists (Z.to_nat p); lia).
    destruct E as [n [Hn ->]].
    do 24 (destruct n as [|n]; [try reflexivity; lia|]). lia.
  - cbn. lia.
Defined.

Lemma findFirstSet_range_end_only_if_clear_witness :
  Forall (in_range uint8_t) [0; 0; 16; 255] /\
  findFirstSet_range uint8_t MasksCount 4 [0; 0; 16; 255]
    (mkBitIterator 0 3) (mkBitIterator 3 0) = Ok (mkBitIterator 2 4) /\
  position uint8_t (mkBitIterator 0 3) <= position uint8_t (mkBitIterator 2 4)
    <= position uint8_t (mkBitIterator 3 0).
Proof.
  assert (Hb : Forall (in_range uint8_t) [0; 0; 16; 255])
    by (repeat constructor; solve_range).
  assert (Hv : valid_range uint8_t [0; 0; 16; 255]
                 (mkBitIterator 0 3) (mkBitIterator 3 0)).
  { unfold valid_range, offset_ok, position. cbn. repeat split; lia. }
  assert (Hres : findFirstSet_range uint8_t MasksCount 4 [0; 0; 16; 255]
                   (mkBitIterator 0 3) (mkBitIterator 3 0)
                 = Ok (mkBitIterator 2 4)) by reflexivity.
  split; [exact Hb|]. split; [exact Hres|].
  apply (findFirstSet_range_end_only_if_clear uint8_t eq_refl MasksCount
           _ _ _ 4 _ Hb Hv Hres).
Defined.
